(** * Parallel Game of Life ([gol.c]): the simulation core

    A shallow embedding of the row-partitioned, barrier-synchronised
    simulation of [gol.c] and the properties of its partitioner, its toroidal
    neighbour count, its transition rule and its worker pool.

    Conventions of the embedding.
    - A C [int] is a [Z].  C's [/] and [%] truncate towards zero, so they are
      [Z.quot] and [Z.rem] (stdpp's infix [`quot`] and [`rem`]).  The index
      arithmetic of [neighbors] is given twice: [neighbor_indices] in exact
      integers and [neighbor_indices_int32] with every [+], [-] and [*]
      wrapped to 32 bits as the machine computes it; [fits_int] is the bound
      under which no operation wraps ([neighbors_arith_in_int_range]) and
      the two agree ([neighbor_indices_int32_exact]).
    - The board [char *earth] is a [list ascii]; ['@'] is a live cell and
      ['-'] a dead one.  [load] and [store] are the array read and write; an
      index outside the list reads nothing and writes nothing (C leaves both
      undefined), and the theorems carry the bounds under which this never
      happens.
    - The threads of the pool only meet at [pthread_barrier_wait]; a run is a
      sequence of phases, one per stretch of code between two barriers, and
      within a phase the atomic actions of the threads are interleaved
      arbitrarily. *)

From stdpp Require Import base tactics option list list_numbers numbers strings.
From Stdlib Require Import ZArith Ascii Lia.

Local Open Scope Z_scope.
Local Open Scope char_scope.

(** ** Arrays *)

(** [a[i]] as an r-value. *)
Definition load {A : Type} (a : list A) (i : Z) : option A :=
  if decide (0 ≤ i) then a !! Z.to_nat i else None.

(** [a[i] = x]. *)
Definition store {A : Type} (a : list A) (i : Z) (x : A) : list A :=
  if decide (0 ≤ i) then <[Z.to_nat i := x]> a else a.

(** [for (i = lo; i < hi; ++i) body], threading the state [s]. *)
Definition for_loop {St : Type} (lo hi : Z) (body : Z → St → St) (s : St) : St :=
  foldl (λ s i, body i s) s (seqZ lo (hi - lo)).

(** ** Data model *)

(** [typedef struct init { ... } init_data]. *)
Record init_data : Type := mk_init_data {
  num_rows : Z;
  num_cols : Z;
  iterations : Z;
  init_pairs : Z
}.

(** [typedef struct threads { ... } Threads].  The pointers [earth],
    [BARRIER] and [bounds] refer to objects shared by all threads and are
    passed alongside the record; the field [neighbors] is never used. *)
Record Threads : Type := mk_Threads {
  row_start : Z;
  row_end : Z;
  print_thread : Z;
  tid : Z;
  verbose : Z
}.

Definition ALIVE : ascii := "@".
Definition DEAD : ascii := "-".

(** [earth[i] == c]. *)
Definition cell_is (earth : list ascii) (i : Z) (c : ascii) : bool :=
  bool_decide (load earth i = Some c).

(** A board as [initEarth] hands it to the pool. *)
Definition grid_ok (bounds : init_data) (earth : list ascii) : Prop :=
  1 ≤ num_rows bounds ∧ 1 ≤ num_cols bounds ∧
  Z.of_nat (length earth) = num_rows bounds * num_cols bounds.

(** ** [neighbors] *)

(** The eight indices [neighbors] inspects, in the order of its eight
    tests: [l_index], [r_index], [upper], [l_upper], [r_upper], [lower],
    [l_lower], [r_lower], computed in exact integers: what the code
    computes as long as no operation leaves the [int] range (see
    [neighbor_indices_int32] for the machine's arithmetic). *)
Definition neighbor_indices (index : Z) (bounds : init_data) : list Z :=
  let col := index `rem` num_cols bounds in
  let row := index `quot` num_cols bounds in
  let r_index := row * num_cols bounds + (col + 1) `rem` num_cols bounds in
  let l_index :=
    row * num_cols bounds + ((col - 1) + num_cols bounds) `rem` num_cols bounds in
  let lower := ((row + 1) `rem` num_rows bounds) * num_cols bounds + col in
  let upper :=
    (((row - 1) + num_rows bounds) `rem` num_rows bounds) * num_cols bounds + col in
  let r_lower := (lower `quot` num_cols bounds) * num_cols bounds in
  let r_lower :=
    r_lower + ((lower `rem` num_cols bounds) + 1) `rem` num_cols bounds in
  let l_lower := (lower `quot` num_cols bounds) * num_cols bounds in
  let l_lower :=
    l_lower
    + ((lower `rem` num_cols bounds) - 1 + num_cols bounds) `rem` num_cols bounds in
  let r_upper := (upper `quot` num_cols bounds) * num_cols bounds in
  let r_upper :=
    r_upper + ((upper `rem` num_cols bounds) + 1) `rem` num_cols bounds in
  let l_upper := (upper `quot` num_cols bounds) * num_cols bounds in
  let l_upper :=
    l_upper
    + ((upper `rem` num_cols bounds) - 1 + num_cols bounds) `rem` num_cols bounds in
  [l_index; r_index; upper; l_upper; r_upper; lower; l_lower; r_lower].

(** [int neighbors(char *earth, int index, init_data bounds)]: one
    [if (earth[k] == '@') { neighbors += 1; }] per inspected index. *)
Definition neighbors (earth : list ascii) (index : Z) (bounds : init_data) : Z :=
  foldl (λ neighbors k, if cell_is earth k ALIVE then neighbors + 1 else neighbors)
        0 (neighbor_indices index bounds).


Definition INT_MAX : Z := 2147483647.
Definition INT_MIN : Z := -2147483648.

(** The [int] a 32-bit machine with wrap-around leaves for an operation
    whose exact result is [z]. *)
Definition int32 (z : Z) : Z :=
  (z + 2147483648) `mod` 4294967296 - 2147483648.


(** The eight indices of [neighbors] as a 32-bit machine computes them:
    the arithmetic of [neighbor_indices] with the result of every [+], [-]
    and [*] wrapped ([/] and [%] of [int]s by a positive [int] do not leave
    the range). *)
Definition neighbor_indices_int32 (index : Z) (bounds : init_data) : list Z :=
  let col := index `rem` num_cols bounds in
  let row := index `quot` num_cols bounds in
  let r_index :=
    int32 (int32 (row * num_cols bounds)
           + int32 (col + 1) `rem` num_cols bounds) in
  let l_index :=
    int32 (int32 (row * num_cols bounds)
           + int32 (int32 (col - 1) + num_cols bounds) `rem` num_cols bounds) in
  let lower :=
    int32 (int32 ((int32 (row + 1) `rem` num_rows bounds) * num_cols bounds)
           + col) in
  let upper :=
    int32 (int32 ((int32 (int32 (row - 1) + num_rows bounds)
                   `rem` num_rows bounds) * num_cols bounds)
           + col) in
  let r_lower := int32 ((lower `quot` num_cols bounds) * num_cols bounds) in
  let r_lower :=
    int32 (r_lower
           + int32 ((lower `rem` num_cols bounds) + 1) `rem` num_cols bounds) in
  let l_lower := int32 ((lower `quot` num_cols bounds) * num_cols bounds) in
  let l_lower :=
    int32 (l_lower
           + int32 (int32 ((lower `rem` num_cols bounds) - 1) + num_cols bounds)
             `rem` num_cols bounds) in
  let r_upper := int32 ((upper `quot` num_cols bounds) * num_cols bounds) in
  let r_upper :=
    int32 (r_upper
           + int32 ((upper `rem` num_cols bounds) + 1) `rem` num_cols bounds) in
  let l_upper := int32 ((upper `quot` num_cols bounds) * num_cols bounds) in
  let l_upper :=
    int32 (l_upper
           + int32 (int32 ((upper `rem` num_cols bounds) - 1) + num_cols bounds)
             `rem` num_cols bounds) in
  [l_index; r_index; upper; l_upper; r_upper; lower; l_lower; r_lower].

(** [neighbors] over the indices of the machine; a read outside the board
    finds no live cell. *)
Definition neighbors_int32 (earth : list ascii) (index : Z) (bounds : init_data)
    : Z :=
  foldl (λ neighbors k, if cell_is earth k ALIVE then neighbors + 1 else neighbors)
        0 (neighbor_indices_int32 index bounds).

(** The neighbour count as the specification words it: the number of live
    cells over the offsets [(dr, dc)] of [{-1,0,1}² \ {(0,0)}], each taken at
    [((r + dr) mod rows, (c + dc) mod cols)], with multiplicity. *)
Definition neighbor_offsets : list (Z * Z) :=
  [(-1, -1); (-1, 0); (-1, 1); (0, -1); (0, 1); (1, -1); (1, 0); (1, 1)].

Definition count_live_spec (earth : list ascii) (bounds : init_data) (r c : Z) : Z :=
  foldr
    (λ (d : Z * Z) (count : Z),
       (if cell_is earth (((r + d.1) `mod` num_rows bounds) * num_cols bounds
                          + (c + d.2) `mod` num_cols bounds) ALIVE
        then 1 else 0) + count)
    0 neighbor_offsets.

(** ** [main]: the table of thread data *)

(** One pass of the loop [for (i = 0; i < num_threads; ++i)] of [main]; the
    pass for [i] fills [thread_data[i]], the entry after the [i] entries
    filled so far, and reads [thread_data[i - 1].row_end].  [print_thread] is
    [p_flag] by the last assignment of the pass. *)
Definition init_thread (bounds : init_data) (num_threads p_flag verbose : Z)
    (i : Z) (thread_data : list Threads) : list Threads :=
  let row_start :=
    if decide (i = 0) then 0
    else default 0 (row_end <$> load thread_data (i - 1)) + 1 in
  let row_end :=
    if decide (i < num_rows bounds `rem` num_threads)
    then row_start + num_rows bounds `quot` num_threads
    else row_start + num_rows bounds `quot` num_threads - 1 in
  thread_data ++
    [mk_Threads row_start row_end p_flag i
                (if decide (verbose = 1 ∧ i = 0) then 1 else 0)].

Definition init_thread_data (bounds : init_data) (num_threads p_flag verbose : Z)
    : list Threads :=
  for_loop 0 num_threads (init_thread bounds num_threads p_flag verbose) [].

(** The entry the loop of [main] leaves in [thread_data[i]], in closed
    form (see [init_thread_data_closed]). *)
Definition nth_thread (bounds : init_data) (num_threads p_flag verbose : Z)
    (i : Z) : Threads :=
  let q := num_rows bounds `quot` num_threads in
  let r := num_rows bounds `rem` num_threads in
  mk_Threads (i * q + Z.min i r)
             (i * q + Z.min i r + q - (if decide (i < r) then 0 else 1))
             p_flag i
             (if decide (verbose = 1 ∧ i = 0) then 1 else 0).

(** The number of rows of an inclusive row range. *)
Definition range_size (td : Threads) : Z := row_end td - row_start td + 1.

(** Row [r] belongs to the range of [td]. *)
Definition owns_row (td : Threads) (r : Z) : Prop :=
  row_start td ≤ r ≤ row_end td.

(** ** Shared state, actions and phases *)

(** What the threads of the pool write to the terminal: a call of
    [printEarth] with the board it printed, and the partition line of a
    thread with the four integers given to its [printf]. *)
Inductive event : Type :=
  | EvPrintEarth (earth : list ascii) (bounds : init_data) (iteration : Z)
  | EvPrintThread (tid row_start row_end n : Z).

Record world : Type := mk_world {
  w_earth : list ascii;
  w_stdout : list event
}.

(** The atomic steps of a thread on the shared state. *)
Inductive action : Type :=
  | Write (j : Z) (c : ascii)
  | PrintEarth (bounds : init_data) (iteration : Z)
  | Printf (e : event).

Definition perform (a : action) (w : world) : world :=
  match a with
  | Write j c => mk_world (store (w_earth w) j c) (w_stdout w)
  | PrintEarth bounds iteration =>
      mk_world (w_earth w)
               (w_stdout w ++ [EvPrintEarth (w_earth w) bounds iteration])
  | Printf e => mk_world (w_earth w) (w_stdout w ++ [e])
  end.

Definition run_schedule (sched : list action) (w : world) : world :=
  foldl (λ w a, perform a w) w sched.

(** [interleaving tasks sched]: [sched] runs every action of every task
    once, the actions of one task in their order. *)
Inductive interleaving {A : Type} : list (list A) → list A → Prop :=
  | interleaving_done tasks :
      Forall (λ t, t = []) tasks → interleaving tasks []
  | interleaving_step before x t after sched :
      interleaving (before ++ t :: after) sched →
      interleaving (before ++ (x :: t) :: after) (x :: sched).

(** One phase: between two barriers thread [k] runs [tasks !! k]. *)
Definition phase (tasks : list (list action)) (w w' : world) : Prop :=
  ∃ sched, interleaving tasks sched ∧ w' = run_schedule sched w.

(** ** [simulateLife] *)

Definition simulateLife_start (td : Threads) (bounds : init_data) : Z :=
  row_start td * num_cols bounds.

Definition simulateLife_end (td : Threads) (bounds : init_data) : Z :=
  row_end td * num_cols bounds + num_cols bounds - 1.

(** The body of the first loop, for cell [i]: it reads [earth] and marks
    [change[i]] with [-1] (kill) or [-2] (resurrect). *)
Definition decide_cell (earth : list ascii) (bounds : init_data)
    (i : Z) (change : list Z) : list Z :=
  let change :=
    if cell_is earth i ALIVE then
      if decide (neighbors earth i bounds ≤ 1) then store change i (-1)
      else if decide (neighbors earth i bounds >= 4) then store change i (-1)
      else change
    else change in
  if cell_is earth i DEAD then
    if decide (neighbors earth i bounds = 3) then store change i (-2)
    else change
  else change.

(** The first loop, over the thread's own cells, on a fresh zeroed
    [change] ([calloc]) of the size of the board. *)
Definition simulateLife_decide (td : Threads) (bounds : init_data)
    (earth : list ascii) : list Z :=
  let start := simulateLife_start td bounds in
  let end_ := simulateLife_end td bounds in
  let change := replicate (Z.to_nat (num_rows bounds * num_cols bounds)) 0 in
  for_loop start (end_ + 1) (decide_cell earth bounds) change.

(** The body of the second loop, for cell [j]: the write to [earth] it
    performs, if any. *)
Definition apply_cell (change : list Z) (j : Z) (acts : list action)
    : list action :=
  if decide (load change j = Some (-1)) then acts ++ [Write j DEAD]
  else if decide (load change j = Some (-2)) then acts ++ [Write j ALIVE]
  else acts.

(** The second loop: the writes of the thread, in program order. *)
Definition simulateLife_apply (td : Threads) (bounds : init_data)
    (change : list Z) : list action :=
  let start := simulateLife_start td bounds in
  let end_ := simulateLife_end td bounds in
  for_loop start (end_ + 1) (apply_cell change) [].

(** [simulateLife] run by one thread while no other thread writes the
    board. *)
Definition simulateLife (td : Threads) (bounds : init_data)
    (earth : list ascii) : list ascii :=
  w_earth
    (run_schedule
       (simulateLife_apply td bounds (simulateLife_decide td bounds earth))
       (mk_world earth [])).

(** ** [threadFunc] *)

(** The step of a thread after [simulateLife]: thread 0 prints the board
    when verbose. *)
Definition threadFunc_report (td : Threads) (bounds : init_data) (i : Z)
    : list action :=
  if decide (tid td = 0 ∧ verbose td = 1) then [PrintEarth bounds i] else [].

(** The step of a thread after its last iteration: its partition line. *)
Definition threadFunc_partition (td : Threads) : list action :=
  if decide (print_thread td = 1)
  then [Printf (EvPrintThread (tid td) (row_start td) (row_end td)
                              (row_end td - row_start td))]
  else [].

(** Iteration [i] of all threads.  The barriers around the two loops of
    [simulateLife] make every thread decide on the board as it is when the
    iteration starts, then all threads apply, then thread 0 reports. *)
Definition generation (thread_data : list Threads) (bounds : init_data)
    (i : Z) (w w' : world) : Prop :=
  ∃ w1,
    phase ((λ td, simulateLife_apply td bounds
                    (simulateLife_decide td bounds (w_earth w)))
           <$> thread_data) w w1 ∧
    phase ((λ td, threadFunc_report td bounds i) <$> thread_data) w1 w'.

(** [n] iterations of the loop of [threadFunc], from iteration [i] on. *)
Fixpoint generations (thread_data : list Threads) (bounds : init_data)
    (n : nat) (i : Z) (w w' : world) : Prop :=
  match n with
  | O => w' = w
  | S n =>
      ∃ w1, generation thread_data bounds i w w1 ∧
            generations thread_data bounds n (i + 1) w1 w'
  end.

(** All threads running [threadFunc] from creation to join. *)
Definition threadFunc (thread_data : list Threads) (bounds : init_data)
    (w w' : world) : Prop :=
  ∃ w1,
    generations thread_data bounds (Z.to_nat (iterations bounds)) 0 w w1 ∧
    phase (threadFunc_partition <$> thread_data) w1 w'.

(** The schedule in which the threads apply one after the other, by tid;
    it makes one iteration a function of the board. *)
Definition generation_seq (thread_data : list Threads) (bounds : init_data)
    (earth : list ascii) : list ascii :=
  w_earth
    (run_schedule
       (concat ((λ td, simulateLife_apply td bounds
                         (simulateLife_decide td bounds earth))
                <$> thread_data))
       (mk_world earth [])).

(** ** [initEarth] and [main] *)

(** What [fscanf] reads from the configuration file: the four integers of
    the header and the [col row] pairs that follow. *)
Record config : Type := mk_config {
  cfg_num_rows : Z;
  cfg_num_cols : Z;
  cfg_iterations : Z;
  cfg_init_pairs : Z;
  cfg_pairs : list (Z * Z)
}.

(** How a run ends: normally; by [exit(code)]; by a write of [initEarth]
    outside the memory allocated for the board, where the model stops; or
    in a call to the server that does not come back, because the process is
    killed in it or it blocks. *)
Inductive result (A : Type) : Type :=
  | Ok (a : A)
  | Exit (code : Z)
  | OutOfBoard
  | NoReturn.
Arguments Ok {A} a.
Arguments Exit {A} code.
Arguments OutOfBoard {A}.
Arguments NoReturn {A}.

(** The body of the [while (ret == 2 && ret != EOF)] loop for the pair
    [(col, row)]; [index] is an [int], computed with the machine's
    wrap-around.  The memory of the board is [malloc]ed with
    [num_rows * num_cols * sizeof(int)] bytes, four times the cells of the
    board: a store behind the cells but inside that memory changes no cell
    and the loop goes on; a store outside it leaves the model. *)
Definition initEarth_pair (bounds : init_data) (earth : result (list ascii))
    (pair : Z * Z) : result (list ascii) :=
  match earth with
  | Ok earth =>
      let col := pair.1 in
      let row := pair.2 in
      let index := int32 (int32 (num_cols bounds * row) + col) in
      if decide (0 ≤ index < Z.of_nat (length earth))
      then Ok (store earth index ALIVE)
      else if decide (Z.of_nat (length earth) ≤ index
                      < 4 * Z.of_nat (length earth))
      then Ok earth
      else OutOfBoard
  | stopped => stopped
  end.

(** [initEarth]: [None] is a file that cannot be opened.  A negative
    [num_rows * num_cols] becomes, as a [size_t], a size [malloc] cannot
    give: it returns [NULL] and [initEarth] leaves by [exit(1)]; any other
    allocation is taken to succeed.  What [initEarth] prints when verbose is
    not recorded. *)
Definition initEarth (config_file : option config)
    : result (init_data * list ascii) :=
  match config_file with
  | None => Exit 1
  | Some cfg =>
      let bounds :=
        mk_init_data (cfg_num_rows cfg) (cfg_num_cols cfg)
                     (cfg_iterations cfg) (cfg_init_pairs cfg) in
      if decide (num_rows bounds * num_cols bounds < 0) then Exit 1
      else
        let earth :=
          replicate (Z.to_nat (num_rows bounds * num_cols bounds)) DEAD in
        match foldl (initEarth_pair bounds) (Ok earth) (cfg_pairs cfg) with
        | Ok earth => Ok (bounds, earth)
        | Exit code => Exit code
        | OutOfBoard => OutOfBoard
        | NoReturn => NoReturn
        end
  end.

(** [main] from the call of [initEarth] on; [num_threads], [p_flag] and
    [verbose] are the values the option loop leaves.  The world a run
    returns holds the board and what the threads of the pool printed; the
    lines [main] itself prints (the elapsed time) are not recorded. *)
Definition main (config_file : option config) (num_threads p_flag verbose : Z)
    (out : result world) : Prop :=
  match initEarth config_file with
  | Ok (bounds, earth) =>
      if decide (num_threads < 1 ∨ num_threads > num_rows bounds)
      then out = Exit 1
      else ∃ w',
        threadFunc (init_thread_data bounds num_threads p_flag verbose) bounds
                   (mk_world earth []) w' ∧
        out = Ok w'
  | Exit code => out = Exit code
  | OutOfBoard => out = OutOfBoard
  | NoReturn => out = NoReturn
  end.

(** The live cells of a board as [(col, row)] pairs, row by row. *)
Definition live_cells (bounds : init_data) (earth : list ascii) : list (Z * Z) :=
  omap (λ i, if cell_is earth i ALIVE
             then Some (i `rem` num_cols bounds, i `quot` num_cols bounds)
             else None)
       (seqZ 0 (num_rows bounds * num_cols bounds)).

(** ** [printEarth] *)

(** The calls of [printf] in [printEarth]: the header
    [printf("DAY %d\n==================\n", day)], a cell
    [printf("%c ", c)] with the character read from the board ([None]: the
    read is outside the board), and the end of a row [printf("\n")]. *)
Inductive printf_call : Type :=
  | PrintfDay (day : Z)
  | PrintfCell (c : option ascii)
  | PrintfNewline.

Global Instance printf_call_eq_dec : EqDecision printf_call.
Proof. solve_decision. Defined.

(** The inner loop of [printEarth]: the cells of row [i]. *)
Definition printEarth_row (earth : list ascii) (bounds : init_data) (i : Z)
    (out : list printf_call) : list printf_call :=
  for_loop 0 (num_cols bounds)
    (λ j out,
       let index := (num_cols bounds * i) + j in
       out ++ [PrintfCell (load earth index)])
    out.

(** [printEarth]: what it prints, call by call (the pause [usleep(DELAY)]
    at its end prints nothing). *)
Definition printEarth (earth : list ascii) (bounds : init_data) (iteration : Z)
    : list printf_call :=
  for_loop 0 (num_rows bounds)
    (λ i out, printEarth_row earth bounds i out ++ [PrintfNewline])
    [PrintfDay (iteration + 1)].

(** The characters of the cells among the calls, in the order printed. *)
Definition printed_cells (calls : list printf_call) : list ascii :=
  omap (λ call, match call with PrintfCell c => c | _ => None end) calls.

(** ** [timeDiff] *)

(** [struct timeval]. *)
Record timeval : Type := mk_timeval {
  tv_sec : Z;
  tv_usec : Z
}.

(** [timeDiff(result, start, end)] on three distinct objects: the pair of
    [*result] and of [*start] as the call leaves them ([*end] is only read).
    Both carries adjust [start->tv_usec]; [nsec] is an [int], and is 1 or
    unused on the normalised values of [gettimeofday]. *)
Definition timeDiff (start end_ : timeval) : timeval * timeval :=
  let start :=
    if decide (tv_usec end_ < tv_usec start) then
      let nsec := (tv_usec start - tv_usec end_) `quot` 1000000 + 1 in
      let start := mk_timeval (tv_sec start) (tv_usec start - 1000000 * nsec) in
      mk_timeval (tv_sec start) (tv_usec start + nsec)
    else start in
  let start :=
    if decide (tv_usec end_ - tv_usec start > 1000000) then
      let nsec := (tv_usec end_ - tv_usec start) `quot` 1000000 in
      let start := mk_timeval (tv_sec start) (tv_usec start + 1000000 * nsec) in
      mk_timeval (tv_sec start) (tv_usec start - nsec)
    else start in
  (mk_timeval (tv_sec end_ - tv_sec start) (tv_usec end_ - tv_usec start),
   start).

(** A time in microseconds, and a time as [gettimeofday] gives it. *)
Definition microseconds (t : timeval) : Z := tv_sec t * 1000000 + tv_usec t.

Definition normalised (t : timeval) : Prop := 0 ≤ tv_usec t < 1000000.

(** ** [main]: the options *)

(** What [getopt(argc, argv, "vc:ln:t:p")] returns, one value per pass of
    the loop: the option character with its argument, [opt_t] with the
    [int] that [strtol(optarg, NULL, 10)] leaves in [num_threads], and
    [opt_other] for ['?'], which no case of the [switch] takes.  The passes
    of [-l] and [-n] call the server ([listRemoteFiles], [getFile]);
    [returns] tells whether that call comes back: it does not when the
    process is killed in it (in [open_clientfd] without an address list, or
    past the 10000 bytes of the command buffer) or when [recv] blocks. *)
Inductive getopt_option : Type :=
  | opt_v
  | opt_c (optarg : string)
  | opt_l (returns : bool)
  | opt_n (optarg : string) (returns : bool)
  | opt_t (value : Z)
  | opt_p
  | opt_other.

Global Instance getopt_option_eq_dec : EqDecision getopt_option.
Proof. solve_decision. Defined.

(** The variables of [main] the option loop sets. *)
Record options : Type := mk_options {
  o_verbose : Z;
  o_config_file : option string;
  o_num_threads : Z;
  o_p_flag : Z;
  o_corn : Z
}.

(** One pass of the [switch]: [usage()] leaves by [exit(1)]; [-l] calls
    [listRemoteFiles()] and then [exit(0)]; [-n] calls [getFile] after
    setting [config_file].  What the passes print and the file [getFile]
    writes are not part of the state. *)
Definition main_option (st : result options) (c : getopt_option)
    : result options :=
  match st with
  | Ok st =>
      match c with
      | opt_v =>
          Ok (mk_options 1 (o_config_file st) (o_num_threads st)
                         (o_p_flag st) (o_corn st))
      | opt_c optarg =>
          if decide (o_corn st ≠ 0) then Exit 1
          else Ok (mk_options (o_verbose st) (Some optarg) (o_num_threads st)
                              (o_p_flag st) (o_corn st + 1))
      | opt_l returns => if returns then Exit 0 else NoReturn
      | opt_n optarg returns =>
          if decide (o_corn st ≠ 0) then Exit 1
          else if returns
          then Ok (mk_options (o_verbose st) (Some optarg) (o_num_threads st)
                              (o_p_flag st) (o_corn st + 1))
          else NoReturn
      | opt_t value =>
          Ok (mk_options (o_verbose st) (o_config_file st) value
                         (o_p_flag st) (o_corn st))
      | opt_p =>
          Ok (mk_options (o_verbose st) (o_config_file st) (o_num_threads st)
                         1 (o_corn st))
      | opt_other => Ok st
      end
  | stopped => stopped
  end.

(** The option loop of [main], from the initial values of its
    variables. *)
Definition main_options (opts : list getopt_option) : result options :=
  foldl main_option (Ok (mk_options 0 None 4 0 0)) opts.




Definition thread_option (c : getopt_option) : option Z :=
  match c with
  | opt_t value => Some value
  | _ => None
  end.

(** ** Closed forms used by the proofs *)

(** The cells of thread [td]: the indices its two loops visit. *)
Definition owns_cell (td : Threads) (bounds : init_data) (j : Z) : Prop :=
  simulateLife_start td bounds ≤ j ≤ simulateLife_end td bounds.

(** The threads of [thread_data] own all cells of the board. *)
Definition covers_board (thread_data : list Threads) (bounds : init_data) : Prop :=
  ∀ j, 0 ≤ j < num_rows bounds * num_cols bounds →
       ∃ td, td ∈ thread_data ∧ owns_cell td bounds j.

(** The value the first loop leaves in [change[i]]. *)
Definition decision (earth : list ascii) (bounds : init_data) (i : Z) : Z :=
  if cell_is earth i ALIVE then
    if decide (neighbors earth i bounds ≤ 1) then -1
    else if decide (neighbors earth i bounds >= 4) then -1
    else 0
  else if cell_is earth i DEAD then
    if decide (neighbors earth i bounds = 3) then -2 else 0
  else 0.

(** The transition rule as the specification states it: a live cell with
    [n <= 1] or [n >= 4] live neighbours dies, a live cell with 2 or 3 stays
    alive, a dead cell with exactly 3 becomes alive, any other dead cell
    stays dead. *)
Definition transition_spec (c : ascii) (n : Z) : ascii :=
  if decide (c = ALIVE) then
    if decide (n ≤ 1 ∨ 4 ≤ n) then DEAD else ALIVE
  else if decide (c = DEAD) then
    if decide (n = 3) then ALIVE else DEAD
  else c.

(** One generation of the whole board by that rule, every count taken on
    the board before the generation. *)
Definition next_earth_spec (bounds : init_data) (earth : list ascii) : list ascii :=
  imap (λ i c, transition_spec c (neighbors earth (Z.of_nat i) bounds)) earth.

(** The calls of [printEarth] by thread 0 in [n] iterations from
    iteration [i] on the board [earth]: after each generation, the board it
    leaves. *)
Fixpoint printEarth_events (bounds : init_data) (earth : list ascii) (i : Z)
    (n : nat) : list event :=
  match n with
  | O => []
  | S n =>
      EvPrintEarth (next_earth_spec bounds earth) bounds i
      :: printEarth_events bounds (next_earth_spec bounds earth) (i + 1) n
  end.



(** * Properties *)

(** ** Arithmetic of C's [/] and [%] on the values of the index arithmetic *)

Lemma rem_nonneg (a b : Z) : 0 ≤ a → 0 < b → a `rem` b = a `mod` b.
Proof. intros. apply Z.rem_mod_nonneg; lia. Qed.

Lemma quot_nonneg (a b : Z) : 0 ≤ a → 0 < b → a `quot` b = a `div` b.
Proof. intros. apply Z.quot_div_nonneg; lia. Qed.

Lemma cell_quot (cols r c : Z) :
  0 ≤ r → 0 ≤ c < cols → (r * cols + c) `quot` cols = r.
Proof.
  intros Hr Hc. rewrite quot_nonneg by nia.
  symmetry. apply (Z.div_unique _ _ r c); lia.
Qed.

Lemma cell_rem (cols r c : Z) :
  0 ≤ r → 0 ≤ c < cols → (r * cols + c) `rem` cols = c.
Proof.
  intros Hr Hc. rewrite rem_nonneg by nia.
  symmetry. apply (Z.mod_unique _ _ r c); lia.
Qed.

Lemma succ_rem (n x : Z) : 0 ≤ x < n → (x + 1) `rem` n = (x + 1) `mod` n.
Proof. intros. apply rem_nonneg; lia. Qed.

Lemma pred_rem (n x : Z) : 0 ≤ x < n → (x - 1 + n) `rem` n = (x - 1) `mod` n.
Proof.
  intros. rewrite rem_nonneg by lia.
  replace (x - 1 + n) with (x - 1 + 1 * n) by lia. apply Z.mod_add. lia.
Qed.

Lemma index_row_col (bounds : init_data) (index : Z) :
  1 ≤ num_rows bounds → 1 ≤ num_cols bounds →
  0 ≤ index < num_rows bounds * num_cols bounds →
  index `quot` num_cols bounds = index `div` num_cols bounds ∧
  index `rem` num_cols bounds = index `mod` num_cols bounds ∧
  0 ≤ index `div` num_cols bounds < num_rows bounds ∧
  0 ≤ index `mod` num_cols bounds < num_cols bounds.
Proof.
  intros Hr Hc Hi. rewrite quot_nonneg, rem_nonneg by lia.
  split_and!; try done.
  - apply Z.div_pos; lia.
  - apply Z.div_lt_upper_bound; lia.
  - apply Z.mod_pos_bound; lia.
  - apply Z.mod_pos_bound; lia.
Qed.

(** The eight inspected indices are the cells at the eight offsets, wrapped
    with the mathematical [mod] on both axes. *)
Lemma neighbor_indices_wrap (bounds : init_data) (index : Z) :
  1 ≤ num_rows bounds → 1 ≤ num_cols bounds →
  0 ≤ index < num_rows bounds * num_cols bounds →
  let rows := num_rows bounds in
  let cols := num_cols bounds in
  let r := index `div` cols in
  let c := index `mod` cols in
  neighbor_indices index bounds =
    [r * cols + (c - 1) `mod` cols;
     r * cols + (c + 1) `mod` cols;
     ((r - 1) `mod` rows) * cols + c;
     ((r - 1) `mod` rows) * cols + (c - 1) `mod` cols;
     ((r - 1) `mod` rows) * cols + (c + 1) `mod` cols;
     ((r + 1) `mod` rows) * cols + c;
     ((r + 1) `mod` rows) * cols + (c - 1) `mod` cols;
     ((r + 1) `mod` rows) * cols + (c + 1) `mod` cols].
Proof.
  intros Hr Hc Hi rows cols r c.
  destruct (index_row_col bounds index Hr Hc Hi) as (Hq & Hm & Hrow & Hcol).
  unfold neighbor_indices. rewrite Hq, Hm.
  fold rows cols r c. fold rows cols r c in Hrow, Hcol.
  assert (Hup : 0 ≤ (r - 1) `mod` rows < rows) by (apply Z.mod_pos_bound; lia).
  assert (Hlo : 0 ≤ (r + 1) `mod` rows < rows) by (apply Z.mod_pos_bound; lia).
  rewrite (pred_rem rows r), (succ_rem rows r) by lia.
  rewrite !cell_quot, !cell_rem by lia.
  rewrite (pred_rem cols c), (succ_rem cols c) by lia.
  reflexivity.
Qed.

Lemma load_is_Some {A : Type} (a : list A) (i : Z) :
  is_Some (load a i) ↔ 0 ≤ i < Z.of_nat (length a).
Proof.
  unfold load. case_decide.
  - rewrite lookup_lt_is_Some. lia.
  - split; [intros [? ?]; done | lia].
Qed.

Lemma load_store_eq {A : Type} (a : list A) (i : Z) (x : A) :
  0 ≤ i < Z.of_nat (length a) → load (store a i x) i = Some x.
Proof.
  intros. unfold load, store. rewrite !decide_True by lia.
  apply list_lookup_insert_eq. lia.
Qed.

Lemma load_store_ne {A : Type} (a : list A) (i j : Z) (x : A) :
  i ≠ j → load (store a i x) j = load a j.
Proof.
  intros. unfold load, store. repeat case_decide; try done.
  apply list_lookup_insert_ne. lia.
Qed.

Lemma length_store {A : Type} (a : list A) (i : Z) (x : A) :
  length (store a i x) = length a.
Proof. unfold store. case_decide; [apply length_insert | done]. Qed.

Lemma load_replicate {A : Type} (n : nat) (x : A) (i : Z) :
  0 ≤ i < Z.of_nat n → load (replicate n x) i = Some x.
Proof.
  intros. unfold load. rewrite decide_True by lia.
  apply lookup_replicate_2. lia.
Qed.


(** ** The machine's arithmetic *)

Lemma int32_small (z : Z) : INT_MIN ≤ z ≤ INT_MAX → int32 z = z.
Proof.
  unfold INT_MIN, INT_MAX, int32. intros H.
  rewrite Z.mod_small by lia. lia.
Qed.

Lemma int32_range (z : Z) : INT_MIN ≤ int32 z ≤ INT_MAX.
Proof.
  unfold INT_MIN, INT_MAX, int32.
  pose proof (Z.mod_pos_bound (z + 2147483648) 4294967296). lia.
Qed.

(** Wrapping is a congruence modulo [2^32]: an operand may be wrapped
    before the operation without changing the wrapped result. *)
Lemma int32_add_l (a b : Z) : int32 (int32 a + b) = int32 (a + b).
Proof.
  unfold int32.
  replace ((a + 2147483648) `mod` 4294967296 - 2147483648 + b + 2147483648)
    with ((a + 2147483648) `mod` 4294967296 + b) by lia.
  replace (a + b + 2147483648) with ((a + 2147483648) + b) by lia.
  by rewrite Zplus_mod_idemp_l.
Qed.





(** C10 as claimed, for every board with [rows >= 1] and [cols >= 1], does
    not hold: on the board of 1 row and 1073741825 columns, which has no
    more than [INT_MAX] cells, [(col - 1) + num_cols] is [2^31] at the last
    cell and wraps; the left neighbour and the two left diagonals are
    computed as [-1073741823], before the first cell of any board of that
    size. *)
Lemma neighbors_indices_leave_wide_board :
  let bounds := mk_init_data 1 1073741825 0 0 in
  let index := 1073741824 in
  1 ≤ num_rows bounds ∧ 1 ≤ num_cols bounds ∧
  num_rows bounds * num_cols bounds ≤ INT_MAX ∧
  0 ≤ index < num_rows bounds * num_cols bounds ∧
  neighbor_indices_int32 index bounds =
    [-1073741823; 0; 1073741824; -1073741823; 0; 1073741824; -1073741823; 0] ∧
  ∀ earth : list ascii,
    grid_ok bounds earth →
    ¬ Forall (λ k, 0 ≤ k < num_rows bounds * num_cols bounds ∧
                   is_Some (load earth k))
             (neighbor_indices_int32 index bounds).
Proof.
  intros bounds index.
  assert (Hidx : neighbor_indices_int32 index bounds =
            [-1073741823; 0; 1073741824; -1073741823; 0; 1073741824;
             -1073741823; 0]) by (vm_compute; reflexivity).
  do 4 (split; [by vm_compute |]). split; [done |].
  intros earth _ Hall. rewrite Hidx in Hall.
  apply Forall_inv in Hall as [[Hneg _] _]. lia.
Qed.

Lemma foldl_count {A : Type} (f : A → bool) (a : Z) (l : list A) :
  foldl (λ n k, if f k then n + 1 else n) a l =
  a + foldr (λ k acc, (if f k then 1 else 0) + acc) 0 l.
Proof.
  revert a. induction l as [| k l IH]; intros a; simpl; [lia |].
  rewrite IH. destruct (f k); lia.
Qed.

(** In exact integers [neighbors] is the count of the specification. *)
Lemma neighbors_count_live_spec (bounds : init_data) (earth : list ascii)
    (index : Z) :
  grid_ok bounds earth →
  0 ≤ index < num_rows bounds * num_cols bounds →
  neighbors earth index bounds =
    count_live_spec earth bounds (index `div` num_cols bounds)
                                 (index `mod` num_cols bounds) ∧
  0 ≤ neighbors earth index bounds ≤ 8.
Proof.
  intros (Hr & Hc & Hlen) Hi. unfold neighbors.
  rewrite (neighbor_indices_wrap bounds index Hr Hc Hi), foldl_count.
  destruct (index_row_col bounds index Hr Hc Hi) as (_ & _ & Hrow & Hcol).
  unfold count_live_spec, neighbor_offsets.
  cbn [foldr fst snd].
  change (index `div` num_cols bounds + -1) with (index `div` num_cols bounds - 1).
  change (index `mod` num_cols bounds + -1) with (index `mod` num_cols bounds - 1).
  rewrite !Z.add_0_r.
  rewrite (Z.mod_small (index `div` num_cols bounds)) by lia.
  rewrite (Z.mod_small (index `mod` num_cols bounds)) by lia.
  repeat match goal with
         | |- context [cell_is ?e ?k ?c] => destruct (cell_is e k c)
         end; lia.
Qed.




(** C2 as claimed, for every board with [rows >= 1] and [cols >= 1], does
    not hold: on the board of 1 row and 1431655766 columns, which has no
    more than [INT_MAX] cells, [(col - 1) + num_cols] wraps at the last
    cell to [-num_cols], and the left neighbour and the two left diagonals
    are computed as cell 0 instead of the cell before the last.  All eight
    reads are inside the board; with that cell the only live one,
    [neighbors] returns 0 where the count of the specification is 3. *)
Lemma neighbors_miscounts_on_wide_board :
  let bounds := mk_init_data 1 1431655766 0 0 in
  let index := 1431655765 in
  let earth := store (replicate (Z.to_nat 1431655766) DEAD) 1431655764 ALIVE in
  grid_ok bounds earth ∧
  num_rows bounds * num_cols bounds ≤ INT_MAX ∧
  0 ≤ index < num_rows bounds * num_cols bounds ∧
  neighbor_indices_int32 index bounds = [0; 0; index; 0; 0; index; 0; 0] ∧
  neighbors_int32 earth index bounds = 0 ∧
  count_live_spec earth bounds (index `div` num_cols bounds)
                               (index `mod` num_cols bounds) = 3.
Proof.
  intros bounds index earth.
  assert (Hlen : Z.of_nat (length earth) = 1431655766).
  { unfold earth. rewrite length_store, length_replicate. apply Z2Nat.id. lia. }
  assert (Hlive : load earth 1431655764 = Some ALIVE).
  { unfold earth. apply load_store_eq. rewrite length_replicate, Z2Nat.id; lia. }
  assert (Hdead : ∀ j, 0 ≤ j < 1431655766 → j ≠ 1431655764 →
            load earth j = Some DEAD).
  { intros j Hj Hne. unfold earth. rewrite load_store_ne by done.
    apply load_replicate. rewrite Z2Nat.id; lia. }
  clearbody earth.
  assert (Hgrid : grid_ok bounds earth).
  { unfold grid_ok, bounds. cbn [num_rows num_cols]. lia. }
  assert (Hi : 0 ≤ index < num_rows bounds * num_cols bounds).
  { unfold bounds, index. cbn [num_rows num_cols]. lia. }
  assert (Hidx : neighbor_indices_int32 index bounds =
            [0; 0; index; 0; 0; index; 0; 0]) by (vm_compute; reflexivity).
  split; [exact Hgrid |]. split; [by vm_compute |].
  split; [exact Hi |]. split; [exact Hidx |]. split.
  - unfold neighbors_int32. rewrite Hidx. unfold cell_is, index. cbn [foldl].
    rewrite !(Hdead 0), !(Hdead 1431655765) by lia.
    reflexivity.
  - destruct (neighbors_count_live_spec bounds earth index Hgrid Hi) as [<- _].
    unfold neighbors.
    assert (Hexact : neighbor_indices index bounds =
              [1431655764; 0; index; 1431655764; 0; index; 1431655764; 0])
      by (vm_compute; reflexivity).
    rewrite Hexact. unfold cell_is, index. cbn [foldl].
    rewrite !(Hdead 0), !(Hdead 1431655765), !Hlive by lia.
    reflexivity.
Qed.

(** On a board of one cell every offset wraps to the cell itself, and
    [neighbors] counts it eight times. *)
Example neighbors_one_cell_board :
  neighbors [ALIVE] 0 (mk_init_data 1 1 0 1) = 8 ∧
  neighbors [ALIVE; DEAD; DEAD] 0 (mk_init_data 1 3 0 1) = 2 ∧
  neighbors [ALIVE; DEAD; DEAD] 1 (mk_init_data 1 3 0 1) = 3.
Proof. split_and!; reflexivity. Qed.

(** ** Loops and arrays *)

Lemma for_loop_nil {St : Type} (lo hi : Z) (body : Z → St → St) (s : St) :
  hi ≤ lo → for_loop lo hi body s = s.
Proof. intros. unfold for_loop. rewrite seqZ_nil by lia. reflexivity. Qed.

Lemma for_loop_snoc {St : Type} (lo hi : Z) (body : Z → St → St) (s : St) :
  lo ≤ hi → for_loop lo (hi + 1) body s = body hi (for_loop lo hi body s).
Proof.
  intros. unfold for_loop.
  replace (hi + 1 - lo) with ((hi - lo) + 1) by lia.
  rewrite seqZ_app by lia. rewrite foldl_app.
  rewrite (seqZ_cons _ 1) by lia. rewrite (seqZ_nil _ (Z.pred 1)) by lia. simpl.
  do 2 f_equal. lia.
Qed.

(** Loop invariants: [P i s] holds before the pass for [i]. *)
Lemma for_loop_invariant {St : Type} (P : Z → St → Prop) (lo hi : Z)
    (body : Z → St → St) (s : St) :
  lo ≤ hi →
  P lo s →
  (∀ i s, lo ≤ i < hi → P i s → P (i + 1) (body i s)) →
  P hi (for_loop lo hi body s).
Proof.
  intros Hle Hinit Hstep.
  assert (Hnat : ∀ n : nat, lo + Z.of_nat n ≤ hi →
            P (lo + Z.of_nat n) (for_loop lo (lo + Z.of_nat n) body s)).
  { induction n as [| n IH]; intros Hn.
    - rewrite Z.add_0_r, for_loop_nil by lia. done.
    - replace (lo + Z.of_nat (S n)) with (lo + Z.of_nat n + 1) by lia.
      rewrite for_loop_snoc by lia. apply Hstep; [lia |]. apply IH. lia. }
  specialize (Hnat (Z.to_nat (hi - lo))).
  replace (lo + Z.of_nat (Z.to_nat (hi - lo))) with hi in Hnat by lia.
  apply Hnat. lia.
Qed.

Lemma load_Some_bounds {A : Type} (a : list A) (i : Z) (x : A) :
  load a i = Some x → 0 ≤ i < Z.of_nat (length a).
Proof. intros H. apply load_is_Some. eauto. Qed.

Lemma load_app_last {A : Type} (a : list A) (x : A) :
  load (a ++ [x]) (Z.of_nat (length a)) = Some x.
Proof.
  unfold load. rewrite decide_True by lia. rewrite Nat2Z.id.
  apply list_lookup_middle. reflexivity.
Qed.

Lemma load_app_before {A : Type} (a b : list A) (i : Z) :
  i < Z.of_nat (length a) → load (a ++ b) i = load a i.
Proof.
  intros. unfold load. case_decide; [| done].
  apply lookup_app_l. lia.
Qed.

(** Two arrays of the same length with the same cells are equal. *)
Lemma load_ext {A : Type} (a b : list A) :
  length a = length b →
  (∀ i, 0 ≤ i < Z.of_nat (length a) → load a i = load b i) →
  a = b.
Proof.
  intros Hlen Hload. apply list_eq_same_length with (length a); try done.
  intros i x y Hi Hx Hy.
  specialize (Hload (Z.of_nat i)). unfold load in Hload.
  rewrite !decide_True, Nat2Z.id in Hload by lia.
  rewrite Hload in Hx by lia. congruence.
Qed.

Lemma load_fmap_seqZ {A : Type} (f : Z → A) (lo n i : Z) :
  0 ≤ i < n → load (f <$> seqZ lo n) i = Some (f (lo + i)).
Proof.
  intros. unfold load. rewrite decide_True by lia.
  rewrite list_lookup_fmap, lookup_seqZ_lt by lia.
  simpl. do 2 f_equal. lia.
Qed.

(** ** The partition of the rows *)

Section partition.
Context (bounds : init_data) (num_threads p_flag verbose : Z).
Hypothesis rows_nonneg : 0 ≤ num_rows bounds.
Hypothesis threads_pos : 0 < num_threads.

Lemma init_thread_data_prefix (k : Z) :
  0 ≤ k →
  for_loop 0 k (init_thread bounds num_threads p_flag verbose) [] =
  nth_thread bounds num_threads p_flag verbose <$> seqZ 0 k.
Proof.
  intros Hk.
  assert (Hr : 0 ≤ num_rows bounds `rem` num_threads)
    by (apply Z.rem_nonneg; lia).
  apply (for_loop_invariant
           (λ i td, td = nth_thread bounds num_threads p_flag verbose
                         <$> seqZ 0 i) 0 k); [done | done |].
  intros i td Hi ->.
  rewrite (seqZ_app 0 i 1), fmap_app by lia.
  rewrite (seqZ_cons _ 1), (seqZ_nil _ (Z.pred 1)) by lia. simpl.
  f_equal. unfold init_thread.
  set (q := num_rows bounds `quot` num_threads) in *.
  set (r := num_rows bounds `rem` num_threads) in *.
  assert (Hstart :
    (if decide (i = 0) then 0
     else default 0 (row_end <$>
            load (nth_thread bounds num_threads p_flag verbose <$> seqZ 0 i)
                 (i - 1)) + 1)
    = i * q + Z.min i r).
  { case_decide as Hi0; [subst; lia |].
    rewrite load_fmap_seqZ by lia. simpl. rewrite Z.add_0_l.
    fold q r. case_decide; lia. }
  rewrite Hstart. unfold nth_thread. fold q r. rewrite Z.add_0_l.
  destruct (decide (i < r)); [rewrite Z.sub_0_r |]; reflexivity.
Qed.

Lemma init_thread_data_closed :
  init_thread_data bounds num_threads p_flag verbose =
  nth_thread bounds num_threads p_flag verbose <$> seqZ 0 num_threads.
Proof. apply init_thread_data_prefix. lia. Qed.

Lemma init_thread_data_length :
  Z.of_nat (length (init_thread_data bounds num_threads p_flag verbose))
  = num_threads.
Proof.
  rewrite init_thread_data_closed.
  rewrite length_fmap, length_seqZ. lia.
Qed.

Lemma init_thread_data_load (i : Z) (td : Threads) :
  load (init_thread_data bounds num_threads p_flag verbose) i = Some td ↔
  0 ≤ i < num_threads ∧ td = nth_thread bounds num_threads p_flag verbose i.
Proof.
  rewrite init_thread_data_closed.
  split.
  - intros Hload. pose proof (load_Some_bounds _ _ _ Hload) as Hi.
    rewrite length_fmap, length_seqZ in Hi.
    rewrite load_fmap_seqZ, Z.add_0_l in Hload by lia.
    split; [lia | congruence].
  - intros [? ->]. by rewrite load_fmap_seqZ, Z.add_0_l by lia.
Qed.
End partition.

(** The start of the range of thread [i], and where the ranges of all
    threads before [i] end. *)
Lemma nth_thread_start_step (bounds : init_data) (W p v i : Z) :
  row_start (nth_thread bounds W p v (i + 1)) =
  row_end (nth_thread bounds W p v i) + 1.
Proof. unfold nth_thread; simpl. case_decide; nia. Qed.

Lemma nth_thread_start_mono (bounds : init_data) (W p v i j : Z) :
  0 ≤ num_rows bounds → 0 < W → i ≤ j →
  row_start (nth_thread bounds W p v i) ≤ row_start (nth_thread bounds W p v j).
Proof.
  intros Hrows HW Hij. unfold nth_thread; simpl.
  assert (0 ≤ num_rows bounds `quot` W) by (apply Z.quot_pos; lia).
  nia.
Qed.

Lemma nth_thread_start_last (bounds : init_data) (W p v : Z) :
  0 ≤ num_rows bounds → 0 < W →
  row_start (nth_thread bounds W p v W) = num_rows bounds.
Proof.
  intros Hrows HW. unfold nth_thread; simpl.
  pose proof (Z.quot_rem' (num_rows bounds) W).
  pose proof (Z.rem_bound_pos (num_rows bounds) W).
  nia.
Qed.

Lemma nth_thread_cover (bounds : init_data) (W p v : Z) (k : nat) (x : Z) :
  0 ≤ num_rows bounds → 0 < W →
  0 ≤ x < row_start (nth_thread bounds W p v (Z.of_nat k)) →
  ∃ i, 0 ≤ i < Z.of_nat k ∧ owns_row (nth_thread bounds W p v i) x.
Proof.
  intros Hrows HW. induction k as [| k IH]; intros Hx.
  - pose proof (Z.rem_nonneg (num_rows bounds) W).
    unfold nth_thread in Hx; simpl in Hx. lia.
  - destruct (decide (x < row_start (nth_thread bounds W p v (Z.of_nat k))))
      as [Hlt | Hge].
    + destruct IH as (i & Hi & Hown); [lia |]. exists i. split; [lia | done].
    + exists (Z.of_nat k). split; [lia |]. unfold owns_row.
      replace (Z.of_nat (S k)) with (Z.of_nat k + 1) in Hx by lia.
      rewrite nth_thread_start_step in Hx. lia.
Qed.

(** C1: for [rows >= 1] and [1 <= W <= rows] the loop of [main] gives [W]
    row ranges, thread [i] at position [i], that form a pairwise disjoint
    cover of [[0, rows)]: every range is non-empty and inside [[0, rows)],
    every row belongs to the range of exactly one thread, the first
    [rows mod W] threads have [rows / W + 1 = ceil (rows / W)] rows and the
    others [rows / W], so two sizes differ by at most 1; for [rows = 10] and
    [W = 3] the ranges are [0..3], [4..6], [7..9], of sizes 4, 3, 3. *)
Theorem partition_disjoint_cover (bounds : init_data) (W p_flag verbose : Z) :
  1 ≤ num_rows bounds →
  1 ≤ W ≤ num_rows bounds →
  let rows := num_rows bounds in
  let thread_data := init_thread_data bounds W p_flag verbose in
  Z.of_nat (length thread_data) = W ∧
  (∀ i td, load thread_data i = Some td →
     tid td = i ∧ 0 ≤ row_start td ∧ row_start td ≤ row_end td < rows) ∧
  (∀ x, 0 ≤ x < rows →
     ∃ i td, load thread_data i = Some td ∧ owns_row td x) ∧
  (∀ i j tdi tdj x,
     load thread_data i = Some tdi → load thread_data j = Some tdj →
     owns_row tdi x → owns_row tdj x → i = j) ∧
  (∀ i td, load thread_data i = Some td →
     (i < rows `mod` W →
        range_size td = rows `div` W + 1 ∧
        range_size td = (rows + W - 1) `div` W) ∧
     (rows `mod` W ≤ i → range_size td = rows `div` W)) ∧
  (∀ i j tdi tdj,
     load thread_data i = Some tdi → load thread_data j = Some tdj →
     -1 ≤ range_size tdi - range_size tdj ≤ 1) ∧
  (rows = 10 → W = 3 →
     (λ td, (row_start td, row_end td)) <$> thread_data
       = [(0, 3); (4, 6); (7, 9)] ∧
     range_size <$> thread_data = [4; 3; 3]).
Proof.
  intros Hrows HW rows thread_data.
  assert (Hload : ∀ i td, load thread_data i = Some td ↔
                          0 ≤ i < W ∧ td = nth_thread bounds W p_flag verbose i).
  { intros. apply init_thread_data_load; lia. }
  assert (Hq : rows `quot` W = rows `div` W) by (apply quot_nonneg; lia).
  assert (Hr : rows `rem` W = rows `mod` W) by (apply rem_nonneg; lia).
  pose proof (Z.div_mod rows W ltac:(lia)) as Hdm.
  pose proof (Z.mod_pos_bound rows W ltac:(lia)) as Hmod.
  assert (Hq1 : 1 ≤ rows `div` W).
  { apply Z.div_le_lower_bound; lia. }
  assert (Hsize : ∀ i, range_size (nth_thread bounds W p_flag verbose i) =
                       rows `div` W + (if decide (i < rows `mod` W) then 1 else 0)).
  { intros i. unfold range_size, nth_thread; simpl. fold rows.
    rewrite Hq, Hr. case_decide; lia. }
  assert (Hin : ∀ i, 0 ≤ i < W →
            0 ≤ row_start (nth_thread bounds W p_flag verbose i) ∧
            row_end (nth_thread bounds W p_flag verbose i) < rows).
  { intros i Hi. split.
    - unfold nth_thread; simpl. fold rows. rewrite Hq, Hr. nia.
    - pose proof (nth_thread_start_mono bounds W p_flag verbose (i + 1) W) as Hm.
      rewrite nth_thread_start_step, nth_thread_start_last in Hm by lia.
      fold rows in Hm. lia. }
  split_and!.
  - apply init_thread_data_length; lia.
  - intros i td [Hi ->]%Hload. split; [done |].
    specialize (Hsize i). specialize (Hin i Hi). unfold range_size in Hsize.
    case_decide; lia.
  - intros x Hx.
    destruct (nth_thread_cover bounds W p_flag verbose (Z.to_nat W) x)
      as (i & Hi & Hown); [lia | lia | |].
    { rewrite Z2Nat.id, nth_thread_start_last by lia. done. }
    exists i, (nth_thread bounds W p_flag verbose i).
    split; [apply Hload; split; [lia | done] | done].
  - intros i j tdi tdj x [Hi ->]%Hload [Hj ->]%Hload Hxi Hxj.
    unfold owns_row in *.
    destruct (Z.lt_trichotomy i j) as [Hlt | [Heq | Hgt]]; [| done |].
    + pose proof (nth_thread_start_mono bounds W p_flag verbose (i + 1) j) as Hm.
      rewrite nth_thread_start_step in Hm. lia.
    + pose proof (nth_thread_start_mono bounds W p_flag verbose (j + 1) i) as Hm.
      rewrite nth_thread_start_step in Hm. lia.
  - intros i td [Hi ->]%Hload. rewrite Hsize. split.
    + intros Hlt. rewrite decide_True by done. split; [done |].
      apply (Z.div_unique _ _ _ (rows `mod` W - 1)); lia.
    + intros Hge. rewrite decide_False by lia. lia.
  - intros i j tdi tdj [Hi ->]%Hload [Hj ->]%Hload.
    rewrite !Hsize. repeat case_decide; lia.
  - intros H10 ->. subst thread_data rows.
    destruct bounds as [nr nc it ip]. simpl in H10. subst nr.
    split; reflexivity.
Qed.

Lemma partition_disjoint_cover_witness :
  let bounds := mk_init_data 10 7 2 0 in
  let thread_data := init_thread_data bounds 3 1 0 in
  (λ td, (row_start td, row_end td)) <$> thread_data
    = [(0, 3); (4, 6); (7, 9)] ∧
  range_size <$> thread_data = [4; 3; 3].
Proof.
  intros bounds thread_data.
  assert (H1 : 1 ≤ num_rows bounds) by (simpl; lia).
  assert (H2 : 1 ≤ 3 ≤ num_rows bounds) by (simpl; lia).
  apply (partition_disjoint_cover bounds 3 1 0 H1 H2); reflexivity.
Defined.

(** ** The two loops of [simulateLife] *)

Lemma cell_is_true (earth : list ascii) (i : Z) (c : ascii) :
  cell_is earth i c = true ↔ load earth i = Some c.
Proof. unfold cell_is. apply bool_decide_eq_true. Qed.

Lemma cell_is_alive_not_dead (earth : list ascii) (i : Z) :
  cell_is earth i ALIVE = true → cell_is earth i DEAD = false.
Proof.
  rewrite cell_is_true. intros H. unfold cell_is.
  apply bool_decide_eq_false. rewrite H. discriminate.
Qed.

Lemma decide_cell_length (earth : list ascii) (bounds : init_data) (i : Z)
    (change : list Z) :
  length (decide_cell earth bounds i change) = length change.
Proof.
  unfold decide_cell.
  repeat (case_match || case_decide); rewrite ?length_store; done.
Qed.

Lemma decide_cell_other (earth : list ascii) (bounds : init_data) (i j : Z)
    (change : list Z) :
  i ≠ j → load (decide_cell earth bounds i change) j = load change j.
Proof.
  intros. unfold decide_cell.
  repeat (case_match || case_decide); rewrite ?load_store_ne by done; done.
Qed.

Lemma decide_cell_same (earth : list ascii) (bounds : init_data) (i : Z)
    (change : list Z) :
  load change i = Some 0 →
  load (decide_cell earth bounds i change) i = Some (decision earth bounds i).
Proof.
  intros Hzero. pose proof (load_Some_bounds _ _ _ Hzero) as Hi.
  unfold decide_cell, decision.
  destruct (cell_is earth i ALIVE) eqn:Halive.
  - rewrite (cell_is_alive_not_dead _ _ Halive).
    repeat case_decide; rewrite ?load_store_eq by done; done.
  - destruct (cell_is earth i DEAD); [| done].
    case_decide; rewrite ?load_store_eq by done; done.
Qed.

(** After the first loop [change] holds the decision of every cell of
    the thread and 0 elsewhere. *)
Lemma simulateLife_decide_spec (td : Threads) (bounds : init_data)
    (earth : list ascii) (j : Z) :
  0 ≤ j < num_rows bounds * num_cols bounds →
  load (simulateLife_decide td bounds earth) j =
  Some (if decide (owns_cell td bounds j) then decision earth bounds j else 0).
Proof.
  intros Hj. unfold simulateLife_decide, owns_cell.
  set (start := simulateLife_start td bounds).
  set (end_ := simulateLife_end td bounds).
  set (N := num_rows bounds * num_cols bounds) in *.
  destruct (decide (start ≤ end_ + 1)) as [Hle | Hgt].
  2: { rewrite for_loop_nil by lia. rewrite load_replicate by lia.
       rewrite decide_False by lia. done. }
  pose proof (for_loop_invariant
    (λ k change, ∀ j, 0 ≤ j < N →
       load change j =
       Some (if decide (start ≤ j < k) then decision earth bounds j else 0))
    start (end_ + 1) (decide_cell earth bounds) (replicate (Z.to_nat N) 0) Hle)
    as Hinv.
  rewrite Hinv; [| | | done].
  - destruct (decide (start ≤ j < end_ + 1)), (decide (start ≤ j ≤ end_));
      done || lia.
  - intros j' Hj'. rewrite load_replicate by lia.
    rewrite decide_False by lia. done.
  - intros i change Hi IH j' Hj'.
    destruct (decide (i = j')) as [-> | Hne].
    + rewrite decide_cell_same.
      * rewrite decide_True by lia. done.
      * rewrite IH by done. rewrite decide_False by lia. done.
    + rewrite decide_cell_other, IH by done.
      destruct (decide (start ≤ j' < i)), (decide (start ≤ j' < i + 1));
        done || lia.
Qed.

Lemma simulateLife_decide_outside (td : Threads) (bounds : init_data)
    (earth : list ascii) (j : Z) :
  ¬ 0 ≤ j < num_rows bounds * num_cols bounds →
  load (simulateLife_decide td bounds earth) j = None.
Proof.
  intros Hj. destruct (load _ j) as [x |] eqn:Hload; [| done].
  apply load_Some_bounds in Hload. exfalso. apply Hj.
  pose proof (Z.le_gt_cases 0 (num_rows bounds * num_cols bounds)).
  assert (length (simulateLife_decide td bounds earth)
          = Z.to_nat (num_rows bounds * num_cols bounds)) as Hlen; [| lia].
  unfold simulateLife_decide.
  set (start := simulateLife_start td bounds).
  set (end_ := simulateLife_end td bounds).
  destruct (decide (start ≤ end_ + 1)) as [Hle | Hgt].
  2: { rewrite for_loop_nil by lia. apply length_replicate. }
  apply (for_loop_invariant
    (λ _ change, length change = Z.to_nat (num_rows bounds * num_cols bounds))
    start (end_ + 1)); [done | apply length_replicate |].
  intros i change _ <-. apply decide_cell_length.
Qed.

(** The second loop issues one write for each cell of the thread that
    [change] marks, and nothing else. *)
Lemma simulateLife_apply_spec (td : Threads) (bounds : init_data)
    (change : list Z) (a : action) :
  a ∈ simulateLife_apply td bounds change ↔
  ∃ j c, a = Write j c ∧ owns_cell td bounds j ∧
         (load change j = Some (-1) ∧ c = DEAD ∨
          load change j = Some (-2) ∧ c = ALIVE).
Proof.
  unfold simulateLife_apply, owns_cell.
  set (start := simulateLife_start td bounds).
  set (end_ := simulateLife_end td bounds).
  destruct (decide (start ≤ end_ + 1)) as [Hle | Hgt].
  2: { rewrite for_loop_nil by lia. split; [by intros ?%elem_of_nil |].
       intros (j & c & _ & ? & _). lia. }
  assert (Hinv : ∀ a, a ∈ for_loop start (end_ + 1) (apply_cell change) [] ↔
       ∃ j c, a = Write j c ∧ start ≤ j < end_ + 1 ∧
              (load change j = Some (-1) ∧ c = DEAD ∨
               load change j = Some (-2) ∧ c = ALIVE)).
  2: { rewrite Hinv.
       split; intros (j & c & ? & ? & ?); exists j, c; split_and!; done || lia. }
  clear a.
  apply (for_loop_invariant
    (λ k acts, ∀ a, a ∈ acts ↔
       ∃ j c, a = Write j c ∧ start ≤ j < k ∧
              (load change j = Some (-1) ∧ c = DEAD ∨
               load change j = Some (-2) ∧ c = ALIVE))
    start (end_ + 1) (apply_cell change) [] Hle).
  - intros a'. split; [by intros ?%elem_of_nil |].
    intros (j & c & _ & ? & _). lia.
  - intros i acts Hi IH a'. unfold apply_cell.
    repeat case_decide; rewrite ?elem_of_app, ?list_elem_of_singleton, IH.
    + split.
      * intros [(j & c & ? & ? & ?) | ->]; [exists j, c | exists i, DEAD];
          split_and!; done || lia || auto.
      * intros (j & c & -> & ? & Hc).
        destruct (decide (j = i)) as [-> | ?].
        -- right. destruct Hc as [[_ ->] | [? _]]; [done | congruence].
        -- left. exists j, c. split_and!; done || lia.
    + split.
      * intros [(j & c & ? & ? & ?) | ->]; [exists j, c | exists i, ALIVE];
          split_and!; done || lia || auto.
      * intros (j & c & -> & ? & Hc).
        destruct (decide (j = i)) as [-> | ?].
        -- right. destruct Hc as [[? _] | [_ ->]]; [congruence | done].
        -- left. exists j, c. split_and!; done || lia.
    + split.
      * intros (j & c & ? & ? & ?). exists j, c. split_and!; done || lia.
      * intros (j & c & -> & ? & Hc).
        destruct (decide (j = i)) as [-> | ?].
        -- destruct Hc as [[? _] | [? _]]; congruence.
        -- exists j, c. split_and!; done || lia.
Qed.

(** The writes of a thread in one iteration, from the board [earth] the
    iteration starts on. *)
Lemma simulateLife_writes (td : Threads) (bounds : init_data)
    (earth : list ascii) (a : action) :
  a ∈ simulateLife_apply td bounds (simulateLife_decide td bounds earth) ↔
  ∃ j c, a = Write j c ∧ owns_cell td bounds j ∧
         0 ≤ j < num_rows bounds * num_cols bounds ∧
         (decision earth bounds j = -1 ∧ c = DEAD ∨
          decision earth bounds j = -2 ∧ c = ALIVE).
Proof.
  rewrite simulateLife_apply_spec. split.
  - intros (j & c & -> & Hown & Hc). exists j, c.
    destruct (decide (0 ≤ j < num_rows bounds * num_cols bounds)) as [Hj | Hj].
    + rewrite simulateLife_decide_spec, decide_True in Hc by done.
      do 3 (split; [done |]).
      destruct Hc as [[? ->] | [? ->]]; [left | right]; split; congruence.
    + rewrite simulateLife_decide_outside in Hc by done.
      destruct Hc as [[? _] | [? _]]; congruence.
  - intros (j & c & -> & Hown & Hj & Hc). exists j, c.
    rewrite simulateLife_decide_spec, decide_True by done.
    do 2 (split; [done |]).
    destruct Hc as [[-> ->] | [-> ->]]; auto.
Qed.

(** ** Schedules *)

Lemma interleaving_elem_of {A : Type} (tasks : list (list A)) (sched : list A) :
  interleaving tasks sched →
  ∀ a, a ∈ sched ↔ ∃ t, t ∈ tasks ∧ a ∈ t.
Proof.
  induction 1 as [tasks Hnil | before x t after sched _ IH]; intros a.
  - split; [by intros ?%elem_of_nil |].
    intros (t & Ht & Ha). rewrite Forall_forall in Hnil.
    rewrite (Hnil t Ht) in Ha. by apply elem_of_nil in Ha.
  - rewrite elem_of_cons, IH. split.
    + intros [-> | (t' & Ht' & Ha)].
      * exists (x :: t). split; [| by left].
        apply elem_of_app. right. by left.
      * apply elem_of_app in Ht' as [Ht' | Ht'].
        -- exists t'. split; [| done]. apply elem_of_app. by left.
        -- apply elem_of_cons in Ht' as [-> | Ht'].
           ++ exists (x :: t). split; [| by right].
              apply elem_of_app. right. by left.
           ++ exists t'. split; [| done].
              apply elem_of_app. right. by right.
    + intros (t' & Ht' & Ha).
      apply elem_of_app in Ht' as [Ht' | Ht'].
      * right. exists t'. split; [| done]. apply elem_of_app. by left.
      * apply elem_of_cons in Ht' as [-> | Ht'].
        -- apply elem_of_cons in Ha as [-> | Ha]; [by left |].
           right. exists t. split; [| done]. apply elem_of_app. right. by left.
        -- right. exists t'. split; [| done].
           apply elem_of_app. right. by right.
Qed.

Lemma interleaving_cons_nil {A : Type} (tasks : list (list A)) (sched : list A) :
  interleaving tasks sched → interleaving ([] :: tasks) sched.
Proof.
  induction 1 as [tasks Hnil | before x t after sched _ IH].
  - constructor. by constructor.
  - apply (interleaving_step ([] :: before)). exact IH.
Qed.

(** The threads running one after the other is one of the schedules. *)
Lemma interleaving_concat {A : Type} (tasks : list (list A)) :
  interleaving tasks (concat tasks).
Proof.
  induction tasks as [| t tasks IH]; simpl.
  - constructor. constructor.
  - induction t as [| x t IHt]; simpl.
    + by apply interleaving_cons_nil.
    + apply (interleaving_step []). exact IHt.
Qed.

Lemma run_schedule_snoc (sched : list action) (a : action) (w : world) :
  run_schedule (sched ++ [a]) w = perform a (run_schedule sched w).
Proof. unfold run_schedule. by rewrite foldl_app. Qed.

Lemma run_schedule_length (sched : list action) (w : world) :
  length (w_earth (run_schedule sched w)) = length (w_earth w).
Proof.
  induction sched as [| a sched IH] using rev_ind; [done |].
  rewrite run_schedule_snoc.
  destruct a; simpl; rewrite ?length_store; exact IH.
Qed.

(** A cell no action of the schedule writes keeps its value. *)
Lemma run_schedule_untouched (sched : list action) (w : world) (j : Z) :
  (∀ c, Write j c ∉ sched) →
  load (w_earth (run_schedule sched w)) j = load (w_earth w) j.
Proof.
  induction sched as [| a sched IH] using rev_ind; intros Hno; [done |].
  rewrite run_schedule_snoc.
  assert (Hprev : ∀ c, Write j c ∉ sched).
  { intros c Hin. apply (Hno c). apply elem_of_app. by left. }
  destruct a as [j' c' | |]; simpl; try by apply IH.
  rewrite load_store_ne; [by apply IH |].
  intros ->. apply (Hno c'). apply elem_of_app. right. by left.
Qed.

(** A cell of the board that the schedule writes, always with the same
    value, ends with that value. *)
Lemma run_schedule_written (sched : list action) (w : world) (j : Z) (c : ascii) :
  (∀ c', Write j c' ∈ sched → c' = c) →
  Write j c ∈ sched →
  0 ≤ j < Z.of_nat (length (w_earth w)) →
  load (w_earth (run_schedule sched w)) j = Some c.
Proof.
  induction sched as [| a sched IH] using rev_ind; intros Hsame Hin Hj.
  { by apply elem_of_nil in Hin. }
  rewrite run_schedule_snoc.
  assert (Hprev : ∀ c', Write j c' ∈ sched → c' = c).
  { intros c' Hc'. apply Hsame. apply elem_of_app. by left. }
  assert (Hlast : ∀ j' c', a = Write j' c' → j' = j → c' = c).
  { intros j' c' -> ->. apply Hsame. apply elem_of_app. right. by left. }
  apply elem_of_app in Hin as [Hin | Hin%list_elem_of_singleton].
  - destruct a as [j' c' | |]; simpl; try by apply IH.
    destruct (decide (j' = j)) as [-> | Hne].
    + rewrite (Hlast j c' eq_refl eq_refl).
      apply load_store_eq. by rewrite run_schedule_length.
    + rewrite load_store_ne by done. by apply IH.
  - subst a. simpl. apply load_store_eq. by rewrite run_schedule_length.
Qed.

(** Only [printEarth] and [printf] grow the output, only writes change
    the board. *)
Lemma run_schedule_no_write (sched : list action) (w : world) :
  (∀ j c, Write j c ∉ sched) →
  w_earth (run_schedule sched w) = w_earth w.
Proof.
  induction sched as [| a sched IH] using rev_ind; intros Hno; [done |].
  rewrite run_schedule_snoc.
  assert (Hprev : ∀ j c, Write j c ∉ sched).
  { intros j c Hin. apply (Hno j c). apply elem_of_app. by left. }
  destruct a as [j c | |]; simpl; try by apply IH.
  exfalso. apply (Hno j c). apply elem_of_app. right. by left.
Qed.

Lemma run_schedule_only_writes (sched : list action) (w : world) :
  (∀ a, a ∈ sched → ∃ j c, a = Write j c) →
  w_stdout (run_schedule sched w) = w_stdout w.
Proof.
  induction sched as [| a sched IH] using rev_ind; intros Hall; [done |].
  rewrite run_schedule_snoc.
  destruct (Hall a) as (j & c & ->); [apply elem_of_app; right; by left |].
  simpl. apply IH. intros a Ha. apply Hall. apply elem_of_app. by left.
Qed.

(** The events of a schedule without [printEarth] are those of its
    [printf]s. *)
Lemma run_schedule_stdout_printf (sched : list action) (w : world) (e : event) :
  (∀ b i, PrintEarth b i ∉ sched) →
  e ∈ w_stdout (run_schedule sched w) ↔ e ∈ w_stdout w ∨ Printf e ∈ sched.
Proof.
  induction sched as [| a sched IH] using rev_ind; intros Hno.
  { simpl. split; [auto |]. intros [? | ?%elem_of_nil]; done. }
  rewrite run_schedule_snoc.
  assert (Hprev : ∀ b i, PrintEarth b i ∉ sched).
  { intros b i Hin. apply (Hno b i). apply elem_of_app. by left. }
  specialize (IH Hprev).
  destruct a as [j c | b i | e']; simpl.
  - rewrite IH, elem_of_app, list_elem_of_singleton.
    split; [intros [? | ?]; auto | intros [? | [? | ?]]; auto; discriminate].
  - exfalso. apply (Hno b i). apply elem_of_app. right. by left.
  - rewrite !elem_of_app, !list_elem_of_singleton, IH.
    split; [intros [[? | ?] | ->]; auto | intros [? | [? | [= ->]]]; auto].
Qed.

(** ** One iteration of the pool *)

Lemma decision_cases (earth : list ascii) (bounds : init_data) (j : Z) :
  decision earth bounds j = -1 ∨ decision earth bounds j = -2 ∨
  decision earth bounds j = 0.
Proof. unfold decision. repeat (case_match || case_decide); auto. Qed.

(** What the mark of a cell does to it is the transition rule of the
    specification. *)
Lemma decision_transition (earth : list ascii) (bounds : init_data) (j : Z)
    (c : ascii) :
  load earth j = Some c →
  let n := neighbors earth j bounds in
  (decision earth bounds j = -1 → transition_spec c n = DEAD) ∧
  (decision earth bounds j = -2 → transition_spec c n = ALIVE) ∧
  (decision earth bounds j = 0 → transition_spec c n = c).
Proof.
  intros Hc n. unfold decision, transition_spec, cell_is. fold n.
  rewrite Hc.
  destruct (decide (c = ALIVE)) as [-> | Hna].
  - rewrite bool_decide_eq_true_2 by done.
    repeat case_decide; split_and!; intros; done || lia.
  - rewrite bool_decide_eq_false_2 by congruence.
    destruct (decide (c = DEAD)) as [-> | Hnd].
    + rewrite bool_decide_eq_true_2 by done.
      repeat case_decide; split_and!; intros; done || lia.
    + rewrite bool_decide_eq_false_2 by congruence.
      split_and!; intros; done.
Qed.

Section apply_phase.
Context (thread_data : list Threads) (bounds : init_data) (w w1 : world).
Hypothesis Hsize :
  Z.of_nat (length (w_earth w)) = num_rows bounds * num_cols bounds.
Hypothesis Hphase :
  phase ((λ td, simulateLife_apply td bounds
                  (simulateLife_decide td bounds (w_earth w)))
         <$> thread_data) w w1.

Lemma apply_phase_writes :
  ∃ sched, w1 = run_schedule sched w ∧
    ∀ a, a ∈ sched ↔
      ∃ td j c, td ∈ thread_data ∧ a = Write j c ∧ owns_cell td bounds j ∧
                0 ≤ j < num_rows bounds * num_cols bounds ∧
                (decision (w_earth w) bounds j = -1 ∧ c = DEAD ∨
                 decision (w_earth w) bounds j = -2 ∧ c = ALIVE).
Proof.
  destruct Hphase as (sched & Hint & ->). exists sched. split; [done |].
  intros a. rewrite (interleaving_elem_of _ _ Hint). split.
  - intros (t & (td & -> & Htd)%list_elem_of_fmap & Ha).
    apply simulateLife_writes in Ha as (j & c & ? & ? & ? & ?).
    by exists td, j, c.
  - intros (td & j & c & Htd & Ha & Hown & Hj & Hc).
    eexists. split; [apply list_elem_of_fmap; by exists td |].
    apply simulateLife_writes. by exists j, c.
Qed.

Lemma apply_phase_length : length (w_earth w1) = length (w_earth w).
Proof.
  destruct apply_phase_writes as (sched & -> & _). apply run_schedule_length.
Qed.

Lemma apply_phase_stdout : w_stdout w1 = w_stdout w.
Proof.
  destruct apply_phase_writes as (sched & -> & Hsched).
  apply run_schedule_only_writes.
  intros a (td & j & c & _ & -> & _)%Hsched. by exists j, c.
Qed.

(** A cell some thread owns takes the value the rule gives it on the
    board before the phase. *)
Lemma apply_phase_owned (j : Z) (c : ascii) :
  (∃ td, td ∈ thread_data ∧ owns_cell td bounds j) →
  load (w_earth w) j = Some c →
  load (w_earth w1) j =
  Some (transition_spec c (neighbors (w_earth w) j bounds)).
Proof.
  intros (td & Htd & Hown) Hc.
  pose proof (load_Some_bounds _ _ _ Hc) as Hj.
  destruct apply_phase_writes as (sched & -> & Hsched).
  destruct (decision_transition _ bounds _ _ Hc) as (Hkill & Hlive & Hkeep).
  destruct (decision_cases (w_earth w) bounds j) as [Hd | [Hd | Hd]].
  - rewrite (Hkill Hd). apply run_schedule_written; [| | done].
    + intros c' (? & ? & ? & _ & [= <- <-] & _ & _ & [[_ ->] | [? _]])%Hsched;
        [done | congruence].
    + apply Hsched. exists td, j, DEAD. split_and!; auto; lia.
  - rewrite (Hlive Hd). apply run_schedule_written; [| | done].
    + intros c' (? & ? & ? & _ & [= <- <-] & _ & _ & [[? _] | [_ ->]])%Hsched;
        [congruence | done].
    + apply Hsched. exists td, j, ALIVE. split_and!; auto; lia.
  - rewrite (Hkeep Hd), <- Hc. apply run_schedule_untouched.
    intros c' (? & ? & ? & _ & [= <- <-] & _ & _ & [[? _] | [? _]])%Hsched;
      congruence.
Qed.

(** A cell no thread owns is not written. *)
Lemma apply_phase_unowned (j : Z) :
  (∀ td, td ∈ thread_data → ¬ owns_cell td bounds j) →
  load (w_earth w1) j = load (w_earth w) j.
Proof.
  intros Hnone. destruct apply_phase_writes as (sched & -> & Hsched).
  apply run_schedule_untouched.
  intros c' (td & ? & ? & Htd & [= <- <-] & Hown & _)%Hsched.
  by apply (Hnone td).
Qed.
End apply_phase.

Lemma report_phase_earth (thread_data : list Threads) (bounds : init_data)
    (i : Z) (w w' : world) :
  phase ((λ td, threadFunc_report td bounds i) <$> thread_data) w w' →
  w_earth w' = w_earth w.
Proof.
  intros (sched & Hint & ->). apply run_schedule_no_write.
  intros j c (t & (td & -> & _)%list_elem_of_fmap & Ha)%(interleaving_elem_of _ _ Hint).
  unfold threadFunc_report in Ha. case_decide.
  - by apply list_elem_of_singleton in Ha.
  - by apply elem_of_nil in Ha.
Qed.

Lemma next_earth_spec_length (bounds : init_data) (earth : list ascii) :
  length (next_earth_spec bounds earth) = length earth.
Proof. apply length_imap. Qed.

Lemma next_earth_spec_load (bounds : init_data) (earth : list ascii) (j : Z) (c : ascii) :
  load earth j = Some c →
  load (next_earth_spec bounds earth) j =
  Some (transition_spec c (neighbors earth j bounds)).
Proof.
  unfold load, next_earth_spec. case_decide; [| done]. intros Hc.
  rewrite list_lookup_imap, Hc. simpl. by rewrite Z2Nat.id.
Qed.

(** With every cell owned, one iteration of the pool is one generation of
    the specification, whatever the schedule. *)
Lemma generation_next_earth_spec (thread_data : list Threads) (bounds : init_data)
    (i : Z) (w w' : world) :
  Z.of_nat (length (w_earth w)) = num_rows bounds * num_cols bounds →
  covers_board thread_data bounds →
  generation thread_data bounds i w w' →
  w_earth w' = next_earth_spec bounds (w_earth w).
Proof.
  intros Hsize Hcover (w1 & Happly & Hreport).
  rewrite (report_phase_earth _ _ _ _ _ Hreport).
  apply load_ext.
  - rewrite next_earth_spec_length. by apply (apply_phase_length thread_data bounds).
  - intros j Hj.
    rewrite (apply_phase_length thread_data bounds w w1) in Hj by done.
    destruct (proj2 (load_is_Some (w_earth w) j) Hj) as [c Hc].
    rewrite (next_earth_spec_load _ _ _ _ Hc).
    apply (apply_phase_owned thread_data bounds w w1); try done.
    apply Hcover. lia.
Qed.

Lemma init_thread_data_covers (bounds : init_data) (W p_flag verbose : Z) :
  1 ≤ num_rows bounds → 1 ≤ num_cols bounds → 1 ≤ W ≤ num_rows bounds →
  covers_board (init_thread_data bounds W p_flag verbose) bounds.
Proof.
  intros Hrows Hcols HW j Hj.
  destruct (index_row_col bounds j Hrows Hcols Hj) as (_ & _ & Hrow & Hcol).
  pose proof (Z.div_mod j (num_cols bounds) ltac:(lia)) as Hdm.
  destruct (nth_thread_cover bounds W p_flag verbose (Z.to_nat W)
              (j `div` num_cols bounds)) as (i & Hi & Hown); [lia | lia | |].
  { rewrite Z2Nat.id, nth_thread_start_last by lia. done. }
  exists (nth_thread bounds W p_flag verbose i). split.
  - assert (Hload : load (init_thread_data bounds W p_flag verbose) i
                    = Some (nth_thread bounds W p_flag verbose i)).
    { apply init_thread_data_load; [lia | lia |]. split; [lia | done]. }
    unfold load in Hload. case_decide; [| done].
    by apply list_elem_of_lookup_2 in Hload.
  - unfold owns_cell, simulateLife_start, simulateLife_end, owns_row in *. nia.
Qed.

(** ** Runs exist *)

Lemma phase_exists (tasks : list (list action)) (w : world) :
  phase tasks w (run_schedule (concat tasks) w).
Proof. exists (concat tasks). split; [apply interleaving_concat | done]. Qed.

Lemma generation_exists (thread_data : list Threads) (bounds : init_data)
    (i : Z) (w : world) :
  ∃ w', generation thread_data bounds i w w'.
Proof. eexists. eexists. split; apply phase_exists. Qed.

Lemma generations_exists (thread_data : list Threads) (bounds : init_data)
    (n : nat) (i : Z) (w : world) :
  ∃ w', generations thread_data bounds n i w w'.
Proof.
  revert i w. induction n as [| n IH]; intros i w; simpl.
  - by exists w.
  - destruct (generation_exists thread_data bounds i w) as [w1 Hw1].
    destruct (IH (i + 1) w1) as [w' Hw']. exists w', w1. done.
Qed.

Lemma threadFunc_exists (thread_data : list Threads) (bounds : init_data)
    (w : world) :
  ∃ w', threadFunc thread_data bounds w w'.
Proof.
  destruct (generations_exists thread_data bounds
              (Z.to_nat (iterations bounds)) 0 w) as [w1 Hw1].
  eexists. exists w1. split; [done | apply phase_exists].
Qed.

(** The cells of a thread are the cells of its rows. *)
Lemma owns_cell_row (td : Threads) (bounds : init_data) (j : Z) :
  1 ≤ num_cols bounds →
  owns_cell td bounds j ↔ owns_row td (j `div` num_cols bounds).
Proof.
  intros Hcols.
  unfold owns_cell, owns_row, simulateLife_start, simulateLife_end.
  pose proof (Z.div_mod j (num_cols bounds) ltac:(lia)) as Hdm.
  pose proof (Z.mod_pos_bound j (num_cols bounds) ltac:(lia)) as Hmod.
  split; intros [? ?]; split; nia.
Qed.

(** The schedule of [generation_seq] is one of the runs of an iteration. *)
Lemma generation_seq_generation (thread_data : list Threads)
    (bounds : init_data) (i : Z) (w : world) :
  ∃ w', generation thread_data bounds i w w' ∧
        w_earth w' = generation_seq thread_data bounds (w_earth w).
Proof.
  eexists. split.
  - eexists. split; apply phase_exists.
  - erewrite report_phase_earth by apply phase_exists.
    unfold generation_seq.
    set (sched := concat _). clearbody sched.
    destruct w as [earth out]. simpl.
    revert earth out. induction sched as [| a sched IH] using rev_ind;
      intros earth out; [done |].
    rewrite !run_schedule_snoc. destruct a; simpl; by rewrite (IH earth out).
Qed.

(** C3: in one iteration of the pool, which always has a run, for every
    thread and every cell [j] of the board in a row of its range, the cell
    after the iteration is the transition rule applied to the cell and its
    neighbour count on the board before the iteration: a live cell with
    count [<= 1] or [>= 4] is dead, a live cell with count 2 or 3 is alive,
    a dead cell with count 3 is alive and any other dead cell is dead. *)
Theorem generation_applies_transition_rules (thread_data : list Threads)
    (bounds : init_data) (i : Z) (w : world) (td : Threads) (j : Z) :
  grid_ok bounds (w_earth w) →
  td ∈ thread_data →
  0 ≤ j < num_rows bounds * num_cols bounds →
  owns_row td (j `div` num_cols bounds) →
  (∃ w', generation thread_data bounds i w w') ∧
  ∀ w', generation thread_data bounds i w w' →
    let n := neighbors (w_earth w) j bounds in
    let before := load (w_earth w) j in
    let after := load (w_earth w') j in
    (before = Some ALIVE → n ≤ 1 ∨ 4 ≤ n → after = Some DEAD) ∧
    (before = Some ALIVE → n = 2 ∨ n = 3 → after = Some ALIVE) ∧
    (before = Some DEAD → n = 3 → after = Some ALIVE) ∧
    (before = Some DEAD → n ≠ 3 → after = Some DEAD).
Proof.
  intros (Hrows & Hcols & Hsize) Htd Hj Hrow.
  split; [apply generation_exists |].
  intros w' (w1 & Happly & Hreport) n before after.
  assert (Hafter : ∀ c, before = Some c →
            after = Some (transition_spec c n)).
  { intros c Hc. subst after. rewrite (report_phase_earth _ _ _ _ _ Hreport).
    apply (apply_phase_owned thread_data bounds w w1); try done.
    exists td. split; [done |]. by apply owns_cell_row. }
  unfold transition_spec in Hafter.
  split_and!; intros Hc Hn; rewrite (Hafter _ Hc); f_equal.
  - rewrite decide_True by done. by rewrite decide_True.
  - rewrite decide_True by done. rewrite decide_False by lia. done.
  - rewrite decide_False by done. rewrite decide_True by done.
    by rewrite decide_True.
  - rewrite decide_False by done. rewrite decide_True by done.
    by rewrite decide_False.
Qed.

Lemma generation_applies_transition_rules_witness :
  let bounds := mk_init_data 5 5 2 3 in
  let earth :=
    [DEAD; DEAD; DEAD; DEAD; DEAD;  DEAD; DEAD; DEAD; DEAD; DEAD;
     DEAD; ALIVE; ALIVE; ALIVE; DEAD;  DEAD; DEAD; DEAD; DEAD; DEAD;
     DEAD; DEAD; DEAD; DEAD; DEAD] in
  let thread_data := init_thread_data bounds 2 0 0 in
  (∃ w', generation thread_data bounds 0 (mk_world earth []) w') ∧
  ∀ w', generation thread_data bounds 0 (mk_world earth []) w' →
    let n := neighbors earth 11 bounds in
    let before := load earth 11 in
    let after := load (w_earth w') 11 in
    (before = Some ALIVE → n ≤ 1 ∨ 4 ≤ n → after = Some DEAD) ∧
    (before = Some ALIVE → n = 2 ∨ n = 3 → after = Some ALIVE) ∧
    (before = Some DEAD → n = 3 → after = Some ALIVE) ∧
    (before = Some DEAD → n ≠ 3 → after = Some DEAD).
Proof.
  intros bounds earth thread_data.
  apply (generation_applies_transition_rules thread_data bounds 0
           (mk_world earth []) (nth_thread bounds 2 0 0 0) 11).
  - unfold grid_ok; simpl; lia.
  - vm_compute. apply list_elem_of_In. simpl. auto.
  - simpl; lia.
  - vm_compute. split; intros H; discriminate H.
Defined.

(** ** Any number of iterations *)

Lemma generation_length (thread_data : list Threads) (bounds : init_data)
    (i : Z) (w w' : world) :
  generation thread_data bounds i w w' →
  length (w_earth w') = length (w_earth w).
Proof.
  intros (w1 & (sched & _ & ->) & Hreport).
  rewrite (report_phase_earth _ _ _ _ _ Hreport). apply run_schedule_length.
Qed.

Lemma generations_next_earth_spec (thread_data : list Threads) (bounds : init_data)
    (n : nat) (i : Z) (w w' : world) :
  Z.of_nat (length (w_earth w)) = num_rows bounds * num_cols bounds →
  covers_board thread_data bounds →
  generations thread_data bounds n i w w' →
  w_earth w' = Nat.iter n (next_earth_spec bounds) (w_earth w).
Proof.
  intros Hsize Hcover. revert i w Hsize.
  induction n as [| n IH]; intros i w Hsize; simpl.
  - by intros ->.
  - intros (w1 & Hgen & Hrest).
    apply IH in Hrest.
    + rewrite Hrest, (generation_next_earth_spec _ _ _ _ _ Hsize Hcover Hgen).
      by rewrite <- Nat.iter_succ_r.
    + by rewrite (generation_length _ _ _ _ _ Hgen).
Qed.

(** With one thread for the whole board an iteration is a call of
    [simulateLife]. *)
Lemma simulateLife_next_earth_spec (td : Threads) (bounds : init_data)
    (earth : list ascii) :
  Z.of_nat (length earth) = num_rows bounds * num_cols bounds →
  covers_board [td] bounds →
  simulateLife td bounds earth = next_earth_spec bounds earth.
Proof.
  intros Hsize Hcover.
  destruct (generation_seq_generation [td] bounds 0 (mk_world earth []))
    as (w' & Hgen & Hseq).
  pose proof (generation_next_earth_spec [td] bounds 0 (mk_world earth []) w'
                Hsize Hcover Hgen) as Hnext.
  simpl in Hnext, Hseq. rewrite <- Hnext, Hseq.
  unfold generation_seq, simulateLife. simpl.
  by rewrite app_nil_r.
Qed.

Lemma next_earth_spec_iter_length (bounds : init_data) (earth : list ascii) (n : nat) :
  length (Nat.iter n (next_earth_spec bounds) earth) = length earth.
Proof.
  induction n as [| n IH]; [done |]. simpl. by rewrite next_earth_spec_length.
Qed.

(** C4: on the same board, the pool with [W1] threads and the pool with
    [W2] threads, [1 <= Wi <= rows], both have runs of every number [n] of
    generations, and under every schedule they leave the same board after
    [n] generations; that board is the one [n] calls of [simulateLife] by
    the single thread of [W = 1] produce. *)
Theorem grid_independent_of_thread_count (bounds : init_data)
    (earth : list ascii) (W1 W2 p1 v1 p2 v2 : Z) (n : nat) :
  grid_ok bounds earth →
  1 ≤ W1 ≤ num_rows bounds →
  1 ≤ W2 ≤ num_rows bounds →
  (∃ w1, generations (init_thread_data bounds W1 p1 v1) bounds n 0
                     (mk_world earth []) w1) ∧
  (∃ w2, generations (init_thread_data bounds W2 p2 v2) bounds n 0
                     (mk_world earth []) w2) ∧
  ∀ w1 w2,
    generations (init_thread_data bounds W1 p1 v1) bounds n 0
                (mk_world earth []) w1 →
    generations (init_thread_data bounds W2 p2 v2) bounds n 0
                (mk_world earth []) w2 →
    w_earth w1 = w_earth w2 ∧
    ∀ td, init_thread_data bounds 1 p1 v1 = [td] →
          w_earth w1 = Nat.iter n (simulateLife td bounds) earth.
Proof.
  intros (Hrows & Hcols & Hsize) HW1 HW2.
  do 2 (split; [apply generations_exists |]).
  intros w1 w2 Hrun1 Hrun2.
  apply generations_next_earth_spec in Hrun1;
    [| done | by apply init_thread_data_covers].
  apply generations_next_earth_spec in Hrun2;
    [| done | by apply init_thread_data_covers].
  simpl in Hrun1, Hrun2. split; [congruence |].
  intros td Htd. rewrite Hrun1.
  assert (Hcover : covers_board [td] bounds).
  { rewrite <- Htd. apply init_thread_data_covers; lia. }
  clear Hrun1 Hrun2. induction n as [| n IH]; [done |]. simpl.
  rewrite <- IH. symmetry. apply simulateLife_next_earth_spec; [| done].
  by rewrite next_earth_spec_iter_length.
Qed.

Lemma grid_independent_of_thread_count_witness :
  let bounds := mk_init_data 5 5 2 3 in
  let earth :=
    [DEAD; DEAD; DEAD; DEAD; DEAD;  DEAD; DEAD; DEAD; DEAD; DEAD;
     DEAD; ALIVE; ALIVE; ALIVE; DEAD;  DEAD; DEAD; DEAD; DEAD; DEAD;
     DEAD; DEAD; DEAD; DEAD; DEAD] in
  (∃ w1, generations (init_thread_data bounds 3 0 0) bounds 2 0
                     (mk_world earth []) w1) ∧
  (∃ w2, generations (init_thread_data bounds 1 0 0) bounds 2 0
                     (mk_world earth []) w2) ∧
  ∀ w1 w2,
    generations (init_thread_data bounds 3 0 0) bounds 2 0
                (mk_world earth []) w1 →
    generations (init_thread_data bounds 1 0 0) bounds 2 0
                (mk_world earth []) w2 →
    w_earth w1 = w_earth w2 ∧
    ∀ td, init_thread_data bounds 1 0 0 = [td] →
          w_earth w1 = Nat.iter 2 (simulateLife td bounds) earth.
Proof.
  intros bounds earth.
  apply (grid_independent_of_thread_count bounds earth 3 1 0 0 0 0 2).
  - unfold grid_ok; simpl; lia.
  - simpl; lia.
  - simpl; lia.
Defined.

(** ** [initEarth] *)

Lemma initEarth_bounds (cfg : config) (bounds : init_data) (earth : list ascii) :
  initEarth (Some cfg) = Ok (bounds, earth) →
  bounds = mk_init_data (cfg_num_rows cfg) (cfg_num_cols cfg)
                        (cfg_iterations cfg) (cfg_init_pairs cfg).
Proof.
  unfold initEarth. intros H. case_decide; [done |].
  by destruct (foldl _ _ _); simplify_eq.
Qed.

(** An index that fits an [int] is computed without loss, even if
    [num_cols * row] wraps on the way. *)
Lemma initEarth_index (cols row col : Z) :
  INT_MIN ≤ cols * row + col ≤ INT_MAX →
  int32 (int32 (cols * row) + col) = cols * row + col.
Proof. intros H. by rewrite int32_add_l, int32_small. Qed.

(** The loop over the pairs never leaves by [exit]. *)
Lemma initEarth_pairs_no_exit (bounds : init_data) (pairs : list (Z * Z))
    (start : result (list ascii)) (code : Z) :
  (∀ code', start ≠ Exit code') →
  foldl (initEarth_pair bounds) start pairs ≠ Exit code.
Proof.
  revert start. induction pairs as [| pair pairs IH]; intros start Hstart; simpl.
  - apply Hstart.
  - apply IH. intros code'. unfold initEarth_pair.
    destruct start; [repeat case_decide; done | apply Hstart | done | done].
Qed.

(** Pairs whose linear index is inside the board are all accepted, and
    each marks the cell at its linear index. *)
Lemma initEarth_pairs_spec (bounds : init_data) (pairs : list (Z * Z))
    (earth0 : list ascii) :
  Z.of_nat (length earth0) ≤ INT_MAX →
  Forall (λ p, 0 ≤ num_cols bounds * p.2 + p.1 < Z.of_nat (length earth0))
         pairs →
  ∃ earth,
    foldl (initEarth_pair bounds) (Ok earth0) pairs = Ok earth ∧
    length earth = length earth0 ∧
    ∀ j, 0 ≤ j < Z.of_nat (length earth0) →
      load earth j =
      if decide (Exists (λ p, num_cols bounds * p.2 + p.1 = j) pairs)
      then Some ALIVE else load earth0 j.
Proof.
  intros Hmax.
  induction pairs as [| pair pairs IH] using rev_ind; intros Hin.
  - exists earth0. do 2 (split; [done |]). intros j Hj.
    rewrite decide_False; [done |]. by intros ?%Exists_nil.
  - apply Forall_app in Hin as [Hin Hlast]. apply Forall_inv in Hlast.
    destruct (IH Hin) as (earth & Hfold & Hlen & Hload).
    rewrite foldl_app, Hfold. simpl. rewrite <- Hlen in Hlast.
    rewrite initEarth_index by (unfold INT_MIN; lia).
    rewrite (decide_True _ _ Hlast).
    eexists. split; [done |]. split; [by rewrite length_store |].
    intros j Hj.
    destruct (decide (num_cols bounds * pair.2 + pair.1 = j)) as [<- | Hne].
    + rewrite load_store_eq by done. rewrite decide_True; [done |].
      apply Exists_app. right. by constructor.
    + rewrite load_store_ne, Hload by done.
      destruct (decide (Exists _ pairs)) as [Hex | Hnex].
      * rewrite decide_True; [done |]. apply Exists_app. by left.
      * rewrite decide_False; [done |].
        intros [? | Hex%Exists_cons]%Exists_app; [done |].
        destruct Hex as [? | ?%Exists_nil]; done.
Qed.

(** With a board from [initEarth] and a thread count [main] accepts, the
    runs of [main] are the runs of the pool. *)
Lemma main_runs (config_file : option config) (bounds : init_data)
    (earth : list ascii) (W p_flag verbose : Z) (out : result world) :
  initEarth config_file = Ok (bounds, earth) →
  1 ≤ W ≤ num_rows bounds →
  main config_file W p_flag verbose out ↔
  ∃ w', threadFunc (init_thread_data bounds W p_flag verbose) bounds
                   (mk_world earth []) w' ∧ out = Ok w'.
Proof.
  intros Hinit HW. unfold main. rewrite Hinit.
  rewrite decide_False by lia. done.
Qed.

Lemma main_exists (config_file : option config) (bounds : init_data)
    (earth : list ascii) (W p_flag verbose : Z) :
  initEarth config_file = Ok (bounds, earth) →
  1 ≤ W ≤ num_rows bounds →
  ∃ w', main config_file W p_flag verbose (Ok w').
Proof.
  intros Hinit HW.
  destruct (threadFunc_exists (init_thread_data bounds W p_flag verbose) bounds
              (mk_world earth [])) as [w' Hw'].
  exists w'. apply (main_runs _ bounds earth); [done | done |]. by exists w'.
Qed.

(** C9, as the code has it: [initEarth] does not validate the coordinate
    pairs and has no error for them.  On a board with [rows >= 1],
    [cols >= 1] and at most [INT_MAX] cells, every pair [(col, row)], in
    range or not, whose linear index [cols * row + col] lies in
    [[0, rows*cols)] is accepted and makes the cell at that linear index
    alive; all other cells are dead, [initEarth] does not leave by [exit],
    and [main] goes on to run the pool on that board. *)
Theorem initEarth_marks_linear_index (cfg : config) :
  let rows := cfg_num_rows cfg in
  let cols := cfg_num_cols cfg in
  1 ≤ rows → 1 ≤ cols → rows * cols ≤ INT_MAX →
  Forall (λ p, 0 ≤ cols * p.2 + p.1 < rows * cols) (cfg_pairs cfg) →
  (∀ code, initEarth (Some cfg) ≠ Exit code) ∧
  ∃ bounds earth,
    initEarth (Some cfg) = Ok (bounds, earth) ∧
    num_rows bounds = rows ∧ num_cols bounds = cols ∧
    length earth = Z.to_nat (rows * cols) ∧
    (∀ j, 0 ≤ j < rows * cols →
       load earth j =
       Some (if decide (Exists (λ p, cols * p.2 + p.1 = j) (cfg_pairs cfg))
             then ALIVE else DEAD)) ∧
    (∀ W p_flag verbose, 1 ≤ W ≤ rows →
       ∃ w', main (Some cfg) W p_flag verbose (Ok w')).
Proof.
  intros rows cols Hrows Hcols Hmax Hpairs.
  set (bounds := mk_init_data (cfg_num_rows cfg) (cfg_num_cols cfg)
                              (cfg_iterations cfg) (cfg_init_pairs cfg)).
  destruct (initEarth_pairs_spec bounds (cfg_pairs cfg)
              (replicate (Z.to_nat (rows * cols)) DEAD))
    as (earth & Hfold & Hlen & Hload).
  { rewrite length_replicate. lia. }
  { eapply Forall_impl; [exact Hpairs |]. intros p Hp. simpl in *.
    rewrite length_replicate. fold cols. lia. }
  rewrite length_replicate in Hlen, Hload.
  assert (Hinit : initEarth (Some cfg) = Ok (bounds, earth)).
  { unfold initEarth. fold bounds. simpl. fold rows cols.
    rewrite decide_False by nia. by rewrite Hfold. }
  split; [intros code; by rewrite Hinit |].
  exists bounds, earth. split_and!; try done.
  - intros j Hj. rewrite Hload by lia. simpl. fold cols.
    case_decide; [done |]. apply load_replicate. lia.
  - intros W p_flag verbose HW. by apply (main_exists _ bounds earth).
Qed.

Lemma initEarth_marks_linear_index_witness :
  let cfg := mk_config 3 3 1 1 [(3, 0)] in
  (∀ code, initEarth (Some cfg) ≠ Exit code) ∧
  ∃ bounds earth,
    initEarth (Some cfg) = Ok (bounds, earth) ∧
    num_rows bounds = 3 ∧ num_cols bounds = 3 ∧
    length earth = Z.to_nat (3 * 3) ∧
    (∀ j, 0 ≤ j < 3 * 3 →
       load earth j =
       Some (if decide (Exists (λ p : Z * Z, 3 * p.2 + p.1 = j) [(3, 0)])
             then ALIVE else DEAD)) ∧
    (∀ W p_flag verbose, 1 ≤ W ≤ 3 →
       ∃ w', main (Some cfg) W p_flag verbose (Ok w')).
Proof.
  intros cfg. apply (initEarth_marks_linear_index cfg).
  - simpl; lia.
  - simpl; lia.
  - unfold INT_MAX; simpl; lia.
  - simpl. repeat constructor; simpl; lia.
Defined.

(** C9 as stated fails: on a 3x3 board the pair [(col, row) = (3, 0)] has
    [col >= cols], yet [initEarth] returns a board, with cell [(0, 1)]
    alive, and [main] runs the pool on it. *)
Lemma initEarth_accepts_out_of_range_pair :
  let cfg := mk_config 3 3 1 1 [(3, 0)] in
  Exists (λ p, ¬ (0 ≤ p.1 < cfg_num_cols cfg ∧ 0 ≤ p.2 < cfg_num_rows cfg))
         (cfg_pairs cfg) ∧
  initEarth (Some cfg) =
    Ok (mk_init_data 3 3 1 1,
        [DEAD; DEAD; DEAD;  ALIVE; DEAD; DEAD;  DEAD; DEAD; DEAD]) ∧
  (∀ code, initEarth (Some cfg) ≠ Exit code) ∧
  (∃ w', main (Some cfg) 1 0 0 (Ok w')).
Proof.
  intros cfg. split_and!.
  - constructor. simpl. lia.
  - reflexivity.
  - intros code. discriminate.
  - apply (main_exists _ (mk_init_data 3 3 1 1)
             [DEAD; DEAD; DEAD;  ALIVE; DEAD; DEAD;  DEAD; DEAD; DEAD]);
      [reflexivity | simpl; lia].
Qed.

(** ** The blinker *)

(** C5: on the 5x5 board with the live cells [(1,2)], [(2,2)], [(3,2)]
    given as [(col, row)], for every accepted thread count the pool has runs
    of 1 and of 2 generations, and under every schedule the live cells after
    generation 1 are exactly [(2,1)], [(2,2)], [(2,3)] and after generation
    2 exactly [(1,2)], [(2,2)], [(3,2)]. *)
Theorem blinker_two_generations (W p_flag verbose : Z) (bounds : init_data)
    (earth : list ascii) :
  initEarth (Some (mk_config 5 5 2 3 [(1, 2); (2, 2); (3, 2)]))
    = Ok (bounds, earth) →
  1 ≤ W ≤ num_rows bounds →
  let thread_data := init_thread_data bounds W p_flag verbose in
  live_cells bounds earth = [(1, 2); (2, 2); (3, 2)] ∧
  (∃ w1, generations thread_data bounds 1 0 (mk_world earth []) w1) ∧
  (∃ w2, generations thread_data bounds 2 0 (mk_world earth []) w2) ∧
  (∀ w1, generations thread_data bounds 1 0 (mk_world earth []) w1 →
         live_cells bounds (w_earth w1) = [(2, 1); (2, 2); (2, 3)]) ∧
  (∀ w2, generations thread_data bounds 2 0 (mk_world earth []) w2 →
         live_cells bounds (w_earth w2) = [(1, 2); (2, 2); (3, 2)]).
Proof.
  intros Hinit HW thread_data.
  vm_compute in Hinit. injection Hinit as <- <-.
  assert (Hcover : covers_board thread_data (mk_init_data 5 5 2 3)).
  { apply init_thread_data_covers; simpl in *; lia. }
  split; [reflexivity |].
  do 2 (split; [apply generations_exists |]).
  split; intros w Hrun;
    (apply generations_next_earth_spec in Hrun; [| done | done]);
    rewrite Hrun; vm_compute; reflexivity.
Qed.

Lemma blinker_two_generations_witness :
  let bounds := mk_init_data 5 5 2 3 in
  let earth :=
    [DEAD; DEAD; DEAD; DEAD; DEAD;  DEAD; DEAD; DEAD; DEAD; DEAD;
     DEAD; ALIVE; ALIVE; ALIVE; DEAD;  DEAD; DEAD; DEAD; DEAD; DEAD;
     DEAD; DEAD; DEAD; DEAD; DEAD] in
  let thread_data := init_thread_data bounds 4 0 1 in
  live_cells bounds earth = [(1, 2); (2, 2); (3, 2)] ∧
  (∃ w1, generations thread_data bounds 1 0 (mk_world earth []) w1) ∧
  (∃ w2, generations thread_data bounds 2 0 (mk_world earth []) w2) ∧
  (∀ w1, generations thread_data bounds 1 0 (mk_world earth []) w1 →
         live_cells bounds (w_earth w1) = [(2, 1); (2, 2); (2, 3)]) ∧
  (∀ w2, generations thread_data bounds 2 0 (mk_world earth []) w2 →
         live_cells bounds (w_earth w2) = [(1, 2); (2, 2); (3, 2)]).
Proof.
  intros bounds earth.
  apply (blinker_two_generations 4 0 1 bounds earth).
  - reflexivity.
  - simpl; lia.
Defined.

(** ** The end of [threadFunc] *)

(** The partition lines: the board is not touched, [printEarth] is not
    called, and what is printed are partition lines of the threads. *)
Lemma partition_phase_spec (thread_data : list Threads) (w w' : world) :
  phase (threadFunc_partition <$> thread_data) w w' →
  w_earth w' = w_earth w ∧
  ∀ e, e ∈ w_stdout w' ↔
       e ∈ w_stdout w ∨
       ∃ td, td ∈ thread_data ∧ print_thread td = 1 ∧
             e = EvPrintThread (tid td) (row_start td) (row_end td)
                               (row_end td - row_start td).
Proof.
  intros (sched & Hint & ->).
  assert (Hsched : ∀ a, a ∈ sched ↔
            ∃ td, td ∈ thread_data ∧ print_thread td = 1 ∧
                  a = Printf (EvPrintThread (tid td) (row_start td) (row_end td)
                                            (row_end td - row_start td))).
  { intros a. rewrite (interleaving_elem_of _ _ Hint). split.
    - intros (t & (td & -> & Htd)%list_elem_of_fmap & Ha).
      unfold threadFunc_partition in Ha. case_decide.
      + apply list_elem_of_singleton in Ha. by exists td.
      + by apply elem_of_nil in Ha.
    - intros (td & Htd & Hp & ->). eexists.
      split; [apply list_elem_of_fmap; by exists td |].
      unfold threadFunc_partition. rewrite decide_True by done.
      by apply list_elem_of_singleton. }
  split.
  - apply run_schedule_no_write.
    intros j c (td & _ & _ & ?)%Hsched. discriminate.
  - intros e. rewrite run_schedule_stdout_printf.
    + rewrite Hsched. split.
      * intros [? | (td & ? & ? & [= ->])]; [by left | right; by exists td].
      * intros [? | (td & ? & ? & ->)]; [by left | right; by exists td].
    + intros b i (td & _ & _ & ?)%Hsched. discriminate.
Qed.

(** C6: with [iterations = 0], on a board from [initEarth] and with an
    accepted thread count, [main] has a run, and every run of [main]
    returns normally with every cell of the board as [initEarth] left it
    and without any call of [printEarth]. *)
Theorem zero_iterations_leave_board (cfg : config) (bounds : init_data)
    (earth : list ascii) (W p_flag verbose : Z) :
  initEarth (Some cfg) = Ok (bounds, earth) →
  cfg_iterations cfg = 0 →
  1 ≤ W ≤ num_rows bounds →
  (∃ out, main (Some cfg) W p_flag verbose out) ∧
  ∀ out, main (Some cfg) W p_flag verbose out →
    ∃ w', out = Ok w' ∧ w_earth w' = earth ∧
          ∀ e b i, EvPrintEarth e b i ∉ w_stdout w'.
Proof.
  intros Hinit Hzero HW. split.
  { destruct (main_exists _ bounds earth W p_flag verbose Hinit HW) as [w' Hw'].
    by exists (Ok w'). }
  intros out (w' & (w1 & Hgens & Hpart) & ->)%(main_runs _ bounds earth);
    [| done | done].
  rewrite (initEarth_bounds _ _ _ Hinit) in Hgens. simpl in Hgens.
  rewrite Hzero in Hgens. simpl in Hgens. subst w1.
  apply partition_phase_spec in Hpart as [Hearth Hout].
  exists w'. split_and!; [done | done |].
  intros e b i [?%elem_of_nil | (td & _ & _ & ?)]%Hout; done.
Qed.

Lemma zero_iterations_leave_board_witness :
  let cfg := mk_config 2 2 0 1 [(1, 0)] in
  let earth := [DEAD; ALIVE; DEAD; DEAD] in
  (∃ out, main (Some cfg) 2 1 1 out) ∧
  ∀ out, main (Some cfg) 2 1 1 out →
    ∃ w', out = Ok w' ∧ w_earth w' = earth ∧
          ∀ e b i, EvPrintEarth e b i ∉ w_stdout w'.
Proof.
  intros cfg earth.
  apply (zero_iterations_leave_board cfg (mk_init_data 2 2 0 1) earth 2 1 1).
  - reflexivity.
  - reflexivity.
  - simpl; lia.
Defined.

(** ** Frame of a thread *)

(** C7: whatever [change] holds, the second loop of a thread only writes
    cells with linear index in [[row_start*cols, (row_end+1)*cols)]; run on
    any board, it leaves every cell outside that range as it was, and so
    does the whole of [simulateLife] of that thread. *)
Theorem simulateLife_writes_only_own_rows (td : Threads) (bounds : init_data)
    (change : list Z) (w : world) (earth : list ascii) :
  let lo := row_start td * num_cols bounds in
  let hi := (row_end td + 1) * num_cols bounds in
  (∀ a, a ∈ simulateLife_apply td bounds change →
        ∃ j c, a = Write j c ∧ lo ≤ j < hi) ∧
  (∀ j, ¬ lo ≤ j < hi →
        load (w_earth (run_schedule (simulateLife_apply td bounds change) w)) j
        = load (w_earth w) j) ∧
  length (w_earth (run_schedule (simulateLife_apply td bounds change) w))
    = length (w_earth w) ∧
  (∀ j, ¬ lo ≤ j < hi →
        load (simulateLife td bounds earth) j = load earth j) ∧
  length (simulateLife td bounds earth) = length earth.
Proof.
  intros lo hi.
  assert (Hwrites : ∀ change a, a ∈ simulateLife_apply td bounds change →
            ∃ j c, a = Write j c ∧ lo ≤ j < hi).
  { intros change' a (j & c & -> & Hown & _)%simulateLife_apply_spec.
    exists j, c. split; [done |].
    unfold owns_cell, simulateLife_start, simulateLife_end in Hown.
    subst lo hi. lia. }
  assert (Hframe : ∀ change w j, ¬ lo ≤ j < hi →
            load (w_earth (run_schedule (simulateLife_apply td bounds change) w)) j
            = load (w_earth w) j).
  { intros change' w' j Hj. apply run_schedule_untouched.
    intros c (j' & c' & [= <- <-] & ?)%Hwrites. done. }
  split_and!.
  - apply Hwrites.
  - apply Hframe.
  - apply run_schedule_length.
  - intros j Hj. unfold simulateLife. by rewrite Hframe.
  - unfold simulateLife. by rewrite run_schedule_length.
Qed.

(** ** The partition line *)

(** C8, the code at [rows = 10], [W = 3] with the partition lines on:
    every run of [main] prints for thread 0 the line with the integers
    [0, 0, 3, 3], and the fourth integer of the line of every thread is
    [row_end - row_start], one less than the number of rows of its range
    ([4] rows for thread 0). *)
Theorem partition_line_prints_end_minus_start :
  let cfg := mk_config 10 1 0 0 [] in
  let bounds := mk_init_data 10 1 0 0 in
  let thread_data := init_thread_data bounds 3 1 0 in
  range_size <$> thread_data = [4; 3; 3] ∧
  threadFunc_partition <$> thread_data =
    [[Printf (EvPrintThread 0 0 3 3)]; [Printf (EvPrintThread 1 4 6 2)];
     [Printf (EvPrintThread 2 7 9 2)]] ∧
  (∃ out, main (Some cfg) 3 1 0 out) ∧
  (∀ out, main (Some cfg) 3 1 0 out →
     ∃ w', out = Ok w' ∧
       EvPrintThread 0 0 3 3 ∈ w_stdout w' ∧
       EvPrintThread 0 0 3 4 ∉ w_stdout w') ∧
  (∀ td, print_thread td = 1 →
     threadFunc_partition td =
       [Printf (EvPrintThread (tid td) (row_start td) (row_end td)
                              (range_size td - 1))]).
Proof.
  intros cfg bounds thread_data.
  assert (Hinit : initEarth (Some cfg)
                  = Ok (bounds, replicate 10 DEAD)) by reflexivity.
  split_and!.
  - reflexivity.
  - reflexivity.
  - destruct (main_exists _ _ _ 3 1 0 Hinit) as [w' Hw']; [simpl; lia |].
    by exists (Ok w').
  - intros out (w' & (w1 & Hgens & Hpart) & ->)%(main_runs _ _ _ _ _ _ _ Hinit);
      [| simpl; lia].
    simpl in Hgens. subst w1.
    apply partition_phase_spec in Hpart as [_ Hout].
    exists w'. split_and!; [done | |].
    + apply Hout. right. exists (nth_thread bounds 3 1 0 0).
      split_and!; [| done | done].
      apply list_elem_of_In. vm_compute. by left.
    + intros [?%elem_of_nil | (td & Htd & _ & Heq)]%Hout; [done |].
      apply list_elem_of_In in Htd. vm_compute in Htd.
      destruct Htd as [<- | [<- | [<- | []]]]; discriminate.
  - intros td Hp. unfold threadFunc_partition, range_size.
    rewrite decide_True by done. do 3 f_equal. lia.
Qed.

(** * Further properties of [gol.c] *)

(** ** [timeDiff] *)

(** When the microseconds of [end] are not below those of [start], both
    normalised, [timeDiff] takes neither carry: [*start] is unchanged and
    [*result] is the exact difference, field by field and in
    microseconds. *)
Theorem timeDiff_exact_without_carry (start end_ : timeval) :
  normalised start → normalised end_ →
  tv_usec start ≤ tv_usec end_ →
  timeDiff start end_ =
    (mk_timeval (tv_sec end_ - tv_sec start) (tv_usec end_ - tv_usec start),
     start) ∧
  normalised (timeDiff start end_).1 ∧
  microseconds (timeDiff start end_).1
    = microseconds end_ - microseconds start.
Proof.
  unfold normalised. intros Hs He Hle.
  assert (Heq : timeDiff start end_ =
    (mk_timeval (tv_sec end_ - tv_sec start) (tv_usec end_ - tv_usec start),
     start)).
  { unfold timeDiff.
    destruct (decide (tv_usec end_ < tv_usec start)); [lia |].
    destruct (decide (tv_usec end_ - tv_usec start > 1000000)); [lia |].
    done. }
  rewrite Heq. split; [done |]. unfold normalised, microseconds. cbn [fst snd tv_sec tv_usec]. lia.
Qed.

Lemma timeDiff_exact_without_carry_witness :
  timeDiff (mk_timeval 10 250000) (mk_timeval 12 750000) =
    (mk_timeval 2 500000, mk_timeval 10 250000) ∧
  normalised (timeDiff (mk_timeval 10 250000) (mk_timeval 12 750000)).1 ∧
  microseconds (timeDiff (mk_timeval 10 250000) (mk_timeval 12 750000)).1
    = microseconds (mk_timeval 12 750000) - microseconds (mk_timeval 10 250000).
Proof.
  apply (timeDiff_exact_without_carry (mk_timeval 10 250000)
                                      (mk_timeval 12 750000));
    unfold normalised; simpl; lia.
Defined.

(** When the microseconds of [end] are below those of [start], both
    normalised, the first carry runs with [nsec = 1] and moves
    [start->tv_usec] down by 999999 instead of borrowing a second: the
    seconds of [*result] are [end->tv_sec - start->tv_sec], its
    microseconds stay normalised, and [*result] is 999999 microseconds
    more than the exact difference. *)
Theorem timeDiff_carry_adds_999999 (start end_ : timeval) :
  normalised start → normalised end_ →
  tv_usec end_ < tv_usec start →
  timeDiff start end_ =
    (mk_timeval (tv_sec end_ - tv_sec start)
                (tv_usec end_ - tv_usec start + 999999),
     mk_timeval (tv_sec start) (tv_usec start - 999999)) ∧
  normalised (timeDiff start end_).1 ∧
  microseconds (timeDiff start end_).1
    = microseconds end_ - microseconds start + 999999.
Proof.
  unfold normalised. intros Hs He Hlt.
  assert (Hnsec : (tv_usec start - tv_usec end_) `quot` 1000000 = 0).
  { apply Z.quot_small. lia. }
  assert (Heq : timeDiff start end_ =
    (mk_timeval (tv_sec end_ - tv_sec start)
                (tv_usec end_ - tv_usec start + 999999),
     mk_timeval (tv_sec start) (tv_usec start - 999999))).
  { unfold timeDiff.
    destruct (decide (tv_usec end_ < tv_usec start)); [| lia].
    rewrite Hnsec. cbn [tv_sec tv_usec].
    destruct (decide (_ > 1000000)); [lia |].
    cbn [tv_sec tv_usec]. do 2 f_equal; f_equal; lia. }
  rewrite Heq. split; [done |]. unfold normalised, microseconds. cbn [fst snd tv_sec tv_usec]. lia.
Qed.

Lemma timeDiff_carry_adds_999999_witness :
  timeDiff (mk_timeval 10 750000) (mk_timeval 12 250000) =
    (mk_timeval 2 499999, mk_timeval 10 (-249999)) ∧
  normalised (timeDiff (mk_timeval 10 750000) (mk_timeval 12 250000)).1 ∧
  microseconds (timeDiff (mk_timeval 10 750000) (mk_timeval 12 250000)).1
    = microseconds (mk_timeval 12 250000) - microseconds (mk_timeval 10 750000)
      + 999999.
Proof.
  apply (timeDiff_carry_adds_999999 (mk_timeval 10 750000)
                                    (mk_timeval 12 250000));
    unfold normalised; simpl; lia.
Defined.

(** ** The options of [main] *)

Lemma main_option_stopped (code : Z) (opts : list getopt_option) :
  foldl main_option (Exit code) opts = Exit code.
Proof. induction opts as [| c opts IH]; [done | exact IH]. Qed.

Lemma main_option_lost (opts : list getopt_option) :
  foldl main_option NoReturn opts = NoReturn.
Proof. induction opts as [| c opts IH]; [done | exact IH]. Qed.







(** ** [printEarth] *)

Lemma printed_cells_app (a b : list printf_call) :
  printed_cells (a ++ b) = printed_cells a ++ printed_cells b.
Proof. apply omap_app. Qed.

Lemma printEarth_row_spec (earth : list ascii) (bounds : init_data) (i : Z)
    (out : list printf_call) :
  0 ≤ num_cols bounds →
  printEarth_row earth bounds i out =
  out ++ ((λ j, PrintfCell (load earth (num_cols bounds * i + j)))
          <$> seqZ 0 (num_cols bounds)).
Proof.
  intros Hcols. unfold printEarth_row.
  apply (for_loop_invariant
    (λ k acc, acc = out ++ ((λ j, PrintfCell (load earth (num_cols bounds * i + j)))
                            <$> seqZ 0 k)) 0 (num_cols bounds)); [done | |].
  - by rewrite app_nil_r.
  - intros j acc Hj ->.
    rewrite (seqZ_app 0 j 1), fmap_app, app_assoc by lia.
    rewrite (seqZ_cons _ 1), (seqZ_nil _ (Z.pred 1)) by lia.
    simpl. by rewrite Z.add_0_l.
Qed.

(** The cells a row of a board prints are the cells of that row. *)
Lemma printed_cells_row (earth : list ascii) (bounds : init_data) (i : Z) :
  0 ≤ i → 0 ≤ num_cols bounds →
  num_cols bounds * i + num_cols bounds ≤ Z.of_nat (length earth) →
  printed_cells ((λ j, PrintfCell (load earth (num_cols bounds * i + j)))
                 <$> seqZ 0 (num_cols bounds))
  = take (Z.to_nat (num_cols bounds))
         (drop (Z.to_nat (num_cols bounds * i)) earth).
Proof.
  intros Hi Hcols Hlen.
  set (cols := num_cols bounds) in *.
  assert (Hk : ∀ k : nat, Z.of_nat k ≤ cols →
    printed_cells ((λ j, PrintfCell (load earth (cols * i + j)))
                   <$> seqZ 0 (Z.of_nat k))
    = take k (drop (Z.to_nat (cols * i)) earth)).
  { induction k as [| k IH]; intros Hle; [done |].
    rewrite seqZ_S, fmap_app, printed_cells_app, IH by lia. simpl.
    assert (Hin : 0 ≤ cols * i + (0 + Z.of_nat k) < Z.of_nat (length earth))
      by nia.
    destruct (proj2 (load_is_Some earth _) Hin) as [c Hc].
    rewrite Hc. simpl.
    unfold load in Hc. rewrite decide_True in Hc by lia.
    symmetry. erewrite take_S_r; [done |].
    rewrite lookup_drop. rewrite <- Hc. f_equal. lia. }
  specialize (Hk (Z.to_nat cols)). rewrite Z2Nat.id in Hk by lia.
  apply Hk. lia.
Qed.

(** On a board of [rows*cols] cells [printEarth] first prints the header
    with the day [iteration + 1], then [rows * (cols + 1)] more calls of
    which [rows] end a row, and the characters of the cells it prints, in
    the order printed, are the board. *)
Theorem printEarth_prints_board (earth : list ascii) (bounds : init_data)
    (iteration : Z) :
  grid_ok bounds earth →
  ∃ body,
    printEarth earth bounds iteration = (PrintfDay (iteration + 1) :: body) ∧
    Z.of_nat (length body) = num_rows bounds * (num_cols bounds + 1) ∧
    Z.of_nat (length (filter (λ call, call = PrintfNewline) body))
      = num_rows bounds ∧
    (PrintfDay (iteration + 1) ∉ body) ∧
    printed_cells body = earth.
Proof.
  intros (Hrows & Hcols & Hlen). unfold printEarth.
  set (rows := num_rows bounds) in *. set (cols := num_cols bounds) in *.
  assert (Hinv : ∃ body,
    for_loop 0 rows
      (λ i out, printEarth_row earth bounds i out ++ [PrintfNewline])
      [PrintfDay (iteration + 1)] = (PrintfDay (iteration + 1) :: body) ∧
    Z.of_nat (length body) = rows * (cols + 1) ∧
    Z.of_nat (length (filter (λ call, call = PrintfNewline) body)) = rows ∧
    (PrintfDay (iteration + 1) ∉ body) ∧
    printed_cells body = take (Z.to_nat (cols * rows)) earth).
  { apply (for_loop_invariant
      (λ k out, ∃ body, out = (PrintfDay (iteration + 1) :: body) ∧
         Z.of_nat (length body) = k * (cols + 1) ∧
         Z.of_nat (length (filter (λ call, call = PrintfNewline) body)) = k ∧
         (PrintfDay (iteration + 1) ∉ body) ∧
         printed_cells body = take (Z.to_nat (cols * k)) earth)
      0 rows); [lia | |].
    - exists []. split_and!; try done.
      + apply not_elem_of_nil.
      + by rewrite Z.mul_0_r.
    - intros i out Hi (body & -> & Hbody & Hnl & Hday & Hcells).
      rewrite printEarth_row_spec by (fold cols; lia). fold cols.
      set (row := (λ j, PrintfCell (load earth (cols * i + j))) <$> seqZ 0 cols).
      exists (body ++ row ++ [PrintfNewline]).
      assert (Hrownl : filter (λ call, call = PrintfNewline) row = []).
      { subst row. induction (seqZ 0 cols) as [| j l IH]; [done |].
        simpl. rewrite filter_cons_False by done. exact IH. }
      assert (Hrowlen : Z.of_nat (length row) = cols).
      { subst row. rewrite length_fmap, length_seqZ. lia. }
      split_and!.
      + simpl. by rewrite <- app_assoc.
      + rewrite !length_app. simpl. lia.
      + rewrite !filter_app, Hrownl, !length_app. simpl. lia.
      + rewrite !not_elem_of_app. split_and!; [done | | ].
        * subst row. intros (j & ? & _)%list_elem_of_fmap. discriminate.
        * by intros ?%list_elem_of_singleton.
      + rewrite !printed_cells_app, Hcells. simpl. rewrite app_nil_r.
        subst row.
        pose proof (printed_cells_row earth bounds i) as Hrow.
        fold cols in Hrow. rewrite Hrow by nia.
        rewrite take_take_drop. f_equal. lia. }
  destruct Hinv as (body & Hout & Hbody & Hnl & Hday & Hcells).
  exists body. split_and!; try done.
  rewrite Hcells. apply take_ge. lia.
Qed.

Lemma printEarth_prints_board_witness :
  ∃ body,
    printEarth [DEAD; ALIVE; ALIVE; DEAD; DEAD; DEAD] (mk_init_data 2 3 1 2) 0
      = (PrintfDay (0 + 1) :: body) ∧
    Z.of_nat (length body) = 2 * (3 + 1) ∧
    Z.of_nat (length (filter (λ call, call = PrintfNewline) body)) = 2 ∧
    (PrintfDay (0 + 1) ∉ body) ∧
    printed_cells body = [DEAD; ALIVE; ALIVE; DEAD; DEAD; DEAD].
Proof.
  apply (printEarth_prints_board [DEAD; ALIVE; ALIVE; DEAD; DEAD; DEAD]
           (mk_init_data 2 3 1 2) 0).
  unfold grid_ok; simpl; lia.
Defined.

(** ** The neighbourhood of a cell *)

Lemma succ_mod_cases (n r : Z) :
  0 ≤ r < n → (r + 1) `mod` n = if decide (r + 1 = n) then 0 else r + 1.
Proof.
  intros Hr. case_decide as Hn.
  - rewrite Hn. apply Z_mod_same_full.
  - apply Z.mod_small. lia.
Qed.

Lemma pred_mod_cases (n r : Z) :
  0 ≤ r < n → (r - 1) `mod` n = if decide (r = 0) then n - 1 else r - 1.
Proof.
  intros Hr. case_decide as Hn.
  - subst r. symmetry. apply (Z.mod_unique _ _ (-1)); lia.
  - apply Z.mod_small. lia.
Qed.

Lemma cell_index_inj (cols r1 c1 r2 c2 : Z) :
  0 ≤ c1 < cols → 0 ≤ c2 < cols →
  r1 * cols + c1 = r2 * cols + c2 → r1 = r2 ∧ c1 = c2.
Proof.
  intros Hc1 Hc2 Heq.
  destruct (Z.lt_trichotomy r1 r2) as [Hlt | [-> | Hgt]]; [| lia |].
  - assert (cols ≤ (r2 - r1) * cols) by nia. lia.
  - assert (cols ≤ (r1 - r2) * cols) by nia. lia.
Qed.

(** The rows and columns around a cell, as [neighbors] wraps them. *)
Lemma neighbor_indices_cases (bounds : init_data) (index : Z) :
  1 ≤ num_rows bounds → 1 ≤ num_cols bounds →
  0 ≤ index < num_rows bounds * num_cols bounds →
  ∃ r c ru rl cl cr,
    index = r * num_cols bounds + c ∧
    neighbor_indices index bounds =
      [r * num_cols bounds + cl; r * num_cols bounds + cr;
       ru * num_cols bounds + c; ru * num_cols bounds + cl;
       ru * num_cols bounds + cr;
       rl * num_cols bounds + c; rl * num_cols bounds + cl;
       rl * num_cols bounds + cr] ∧
    0 ≤ r < num_rows bounds ∧ 0 ≤ ru < num_rows bounds ∧
    0 ≤ rl < num_rows bounds ∧
    0 ≤ c < num_cols bounds ∧ 0 ≤ cl < num_cols bounds ∧
    0 ≤ cr < num_cols bounds ∧
    (2 ≤ num_rows bounds → ru ≠ r ∧ rl ≠ r) ∧
    (3 ≤ num_rows bounds → ru ≠ rl) ∧
    (2 ≤ num_cols bounds → cl ≠ c ∧ cr ≠ c) ∧
    (3 ≤ num_cols bounds → cl ≠ cr).
Proof.
  intros Hrows Hcols Hi.
  destruct (index_row_col bounds index Hrows Hcols Hi) as (_ & _ & Hr & Hc).
  pose proof (Z.div_mod index (num_cols bounds) ltac:(lia)) as Hdm.
  exists (index `div` num_cols bounds), (index `mod` num_cols bounds),
    ((index `div` num_cols bounds - 1) `mod` num_rows bounds),
    ((index `div` num_cols bounds + 1) `mod` num_rows bounds),
    ((index `mod` num_cols bounds - 1) `mod` num_cols bounds),
    ((index `mod` num_cols bounds + 1) `mod` num_cols bounds).
  split; [lia |]. split; [by apply neighbor_indices_wrap |].
  rewrite !succ_mod_cases, !pred_mod_cases by done.
  repeat case_decide; split_and!; intros; lia.
Qed.

Lemma neighbor_indices_NoDup (bounds : init_data) (index : Z) :
  3 ≤ num_rows bounds → 3 ≤ num_cols bounds →
  0 ≤ index < num_rows bounds * num_cols bounds →
  NoDup (index :: neighbor_indices index bounds).
Proof.
  intros Hrows Hcols Hi.
  destruct (neighbor_indices_cases bounds index) as
    (r & c & ru & rl & cl & cr & -> & -> & Hr & Hru & Hrl & Hc & Hcl & Hcr &
     Hrne & Hrne' & Hcne & Hcne'); [lia | lia | done |].
  destruct (Hrne ltac:(lia)), (Hcne ltac:(lia)).
  specialize (Hrne' Hrows). specialize (Hcne' Hcols).
  repeat (apply NoDup_cons; split;
          [rewrite ?not_elem_of_cons; split_and?;
           try apply not_elem_of_nil;
           intros [? ?]%cell_index_inj; done || lia|]).
  apply NoDup_nil_2.
Qed.

(** On a board with at least 3 rows and 3 columns the eight cells
    [neighbors] inspects are eight different cells of the board, none of
    them the cell itself. *)
Theorem neighbor_indices_distinct (bounds : init_data) (index : Z) :
  3 ≤ num_rows bounds → 3 ≤ num_cols bounds →
  0 ≤ index < num_rows bounds * num_cols bounds →
  NoDup (index :: neighbor_indices index bounds) ∧
  Forall (λ k, 0 ≤ k < num_rows bounds * num_cols bounds)
         (neighbor_indices index bounds).
Proof.
  intros Hrows Hcols Hi. split; [by apply neighbor_indices_NoDup |].
  destruct (neighbor_indices_cases bounds index) as
    (r & c & ru & rl & cl & cr & _ & -> & ? & ? & ? & ? & ? & ? & _);
    [lia | lia | done |].
  repeat (apply Forall_cons_2; [nia |]). apply Forall_nil_2.
Qed.

Lemma neighbor_indices_distinct_witness :
  NoDup (4 :: neighbor_indices 4 (mk_init_data 3 3 1 0)) ∧
  Forall (λ k, 0 ≤ k < 3 * 3) (neighbor_indices 4 (mk_init_data 3 3 1 0)).
Proof.
  apply (neighbor_indices_distinct (mk_init_data 3 3 1 0) 4); simpl; lia.
Defined.

(** On a board with at least 2 rows and 2 columns a cell is not among
    the cells [neighbors] inspects for it, so its count does not depend on
    its own state. *)
Theorem neighbors_ignores_own_cell (bounds : init_data) (earth : list ascii)
    (index : Z) (c : ascii) :
  2 ≤ num_rows bounds → 2 ≤ num_cols bounds →
  0 ≤ index < num_rows bounds * num_cols bounds →
  (index ∉ neighbor_indices index bounds) ∧
  neighbors (store earth index c) index bounds = neighbors earth index bounds.
Proof.
  intros Hrows Hcols Hi.
  assert (Hnot : index ∉ neighbor_indices index bounds).
  { destruct (neighbor_indices_cases bounds index) as
      (r & c' & ru & rl & cl & cr & -> & -> & Hr & Hru & Hrl & Hc & Hcl & Hcr &
       Hrne & _ & Hcne & _); [lia | lia | done |].
    destruct (Hrne Hrows), (Hcne Hcols).
    rewrite ?not_elem_of_cons; split_and!; try apply not_elem_of_nil;
      intros [? ?]%cell_index_inj; done || lia. }
  split; [done |]. unfold neighbors.
  induction (neighbor_indices index bounds) as [| k l IH] using rev_ind;
    [done |].
  apply not_elem_of_app in Hnot as [Hl Hk%not_elem_of_cons].
  rewrite !foldl_app, IH by done. simpl.
  unfold cell_is. rewrite load_store_ne by (by destruct Hk). done.
Qed.

Lemma neighbors_ignores_own_cell_witness :
  (0 ∉ neighbor_indices 0 (mk_init_data 2 2 1 0)) ∧
  neighbors (store [DEAD; ALIVE; ALIVE; ALIVE] 0 ALIVE) 0 (mk_init_data 2 2 1 0)
    = neighbors [DEAD; ALIVE; ALIVE; ALIVE] 0 (mk_init_data 2 2 1 0).
Proof.
  apply (neighbors_ignores_own_cell (mk_init_data 2 2 1 0)
           [DEAD; ALIVE; ALIVE; ALIVE] 0 ALIVE); simpl; lia.
Defined.

Lemma count_change_one {A : Type} `{EqDecision A} (f g : A → bool) (k : A)
    (l : list A) :
  NoDup l → k ∈ l → (∀ x, x ≠ k → g x = f x) →
  foldr (λ x acc, (if g x then 1 else 0) + acc) 0 l =
  foldr (λ x acc, (if f x then 1 else 0) + acc) 0 l
  + (if g k then 1 else 0) - (if f k then 1 else 0).
Proof.
  intros Hnd Hk Hsame.
  assert (Hout : ∀ l', k ∉ l' →
    foldr (λ x acc, (if g x then 1 else 0) + acc) 0 l' =
    foldr (λ x acc, (if f x then 1 else 0) + acc) 0 l').
  { induction l' as [| x l' IH]; intros Hn; [done |]. simpl.
    apply not_elem_of_cons in Hn as [Hx Hn]. rewrite IH, Hsame by done. done. }
  induction l as [| x l IH]; [by apply elem_of_nil in Hk |].
  apply NoDup_cons in Hnd as [Hx Hnd]. simpl.
  destruct (decide (x = k)) as [-> | Hne].
  - rewrite Hout by done. lia.
  - apply elem_of_cons in Hk as [-> | Hk]; [done |].
    rewrite IH, Hsame by done. lia.
Qed.

(** On a board with at least 3 rows and 3 columns, writing one of the
    eight neighbouring cells changes the count of the cell by exactly the
    change of that neighbour: plus 1 when it becomes alive, minus 1 when it
    stops being alive, 0 otherwise. *)
Theorem neighbors_follows_one_neighbor (bounds : init_data)
    (earth : list ascii) (index k : Z) (c : ascii) :
  grid_ok bounds earth →
  3 ≤ num_rows bounds → 3 ≤ num_cols bounds →
  0 ≤ index < num_rows bounds * num_cols bounds →
  k ∈ neighbor_indices index bounds →
  neighbors (store earth k c) index bounds =
  neighbors earth index bounds
  + (if decide (c = ALIVE) then 1 else 0)
  - (if cell_is earth k ALIVE then 1 else 0).
Proof.
  intros (Hr & Hc & Hlen) Hrows Hcols Hi Hk.
  pose proof (neighbor_indices_NoDup bounds index Hrows Hcols Hi) as Hnd.
  apply NoDup_cons in Hnd as [_ Hnd].
  assert (Hkb : 0 ≤ k < Z.of_nat (length earth)).
  { pose proof (neighbor_indices_wrap bounds index Hr Hc Hi) as Hw.
    destruct (neighbor_indices_cases bounds index Hr Hc Hi) as
      (r & c' & ru & rl & cl & cr & _ & Heq & ? & ? & ? & ? & ? & ? & _).
    rewrite Heq in Hk.
    repeat (apply elem_of_cons in Hk as [-> | Hk]; [nia |]).
    by apply elem_of_nil in Hk. }
  unfold neighbors. rewrite !foldl_count, !Z.add_0_l.
  rewrite (count_change_one (λ x, cell_is earth x ALIVE)
             (λ x, cell_is (store earth k c) x ALIVE) k); [| done | done |].
  - f_equal. f_equal. unfold cell_is. rewrite load_store_eq by done.
    destruct (decide (c = ALIVE)) as [-> | Hne].
    + by rewrite bool_decide_eq_true_2.
    + rewrite bool_decide_eq_false_2; [done | congruence].
  - intros x Hx. unfold cell_is. by rewrite load_store_ne.
Qed.

Lemma neighbors_follows_one_neighbor_witness :
  let bounds := mk_init_data 3 3 1 0 in
  let earth := [DEAD; DEAD; DEAD; DEAD; ALIVE; DEAD; DEAD; DEAD; DEAD] in
  neighbors (store earth 0 ALIVE) 4 bounds =
  neighbors earth 4 bounds + (if decide (ALIVE = ALIVE) then 1 else 0)
  - (if cell_is earth 0 ALIVE then 1 else 0).
Proof.
  intros bounds earth.
  apply (neighbors_follows_one_neighbor bounds earth 4 0 ALIVE).
  - unfold grid_ok; simpl; lia.
  - simpl; lia.
  - simpl; lia.
  - simpl; lia.
  - vm_compute. apply list_elem_of_In. simpl. auto.
Defined.

(** ** The partition at its ends *)

(** With as many threads as rows, thread [i] owns row [i] alone; with one
    thread, that thread owns all rows [0 .. rows-1]. *)
Theorem partition_extreme_thread_counts (bounds : init_data)
    (p_flag verbose : Z) :
  1 ≤ num_rows bounds →
  (∀ i td,
     load (init_thread_data bounds (num_rows bounds) p_flag verbose) i = Some td →
     row_start td = i ∧ row_end td = i) ∧
  (∃ td, init_thread_data bounds 1 p_flag verbose = [td] ∧ tid td = 0 ∧
         row_start td = 0 ∧ row_end td = num_rows bounds - 1).
Proof.
  intros Hrows. split.
  - intros i td [Hi ->]%init_thread_data_load; [| lia | lia].
    unfold nth_thread. simpl.
    rewrite Z.quot_same, Z.rem_same by lia.
    rewrite decide_False by lia. lia.
  - exists (nth_thread bounds 1 p_flag verbose 0).
    split.
    + rewrite init_thread_data_closed by lia.
      rewrite (seqZ_cons 0 1), (seqZ_nil _ (Z.pred 1)) by lia. done.
    + unfold nth_thread. simpl. rewrite Z.quot_1_r, Z.rem_1_r.
      rewrite decide_False by lia. lia.
Qed.

Lemma partition_extreme_thread_counts_witness :
  let bounds := mk_init_data 3 4 1 0 in
  (∀ i td, load (init_thread_data bounds 3 0 0) i = Some td →
           row_start td = i ∧ row_end td = i) ∧
  (∃ td, init_thread_data bounds 1 0 0 = [td] ∧ tid td = 0 ∧
         row_start td = 0 ∧ row_end td = 3 - 1).
Proof.
  intros bounds.
  apply (partition_extreme_thread_counts bounds 0 0). simpl. lia.
Defined.

(** ** The board of [initEarth] *)

Lemma initEarth_board (cfg : config) :
  1 ≤ cfg_num_rows cfg → 1 ≤ cfg_num_cols cfg →
  cfg_num_rows cfg * cfg_num_cols cfg ≤ INT_MAX →
  Forall (λ p, 0 ≤ cfg_num_cols cfg * p.2 + p.1
                 < cfg_num_rows cfg * cfg_num_cols cfg) (cfg_pairs cfg) →
  ∃ earth,
    initEarth (Some cfg) =
      Ok (mk_init_data (cfg_num_rows cfg) (cfg_num_cols cfg)
                       (cfg_iterations cfg) (cfg_init_pairs cfg), earth) ∧
    length earth = Z.to_nat (cfg_num_rows cfg * cfg_num_cols cfg) ∧
    ∀ j, 0 ≤ j < cfg_num_rows cfg * cfg_num_cols cfg →
      load earth j =
      Some (if decide (Exists (λ p, cfg_num_cols cfg * p.2 + p.1 = j)
                              (cfg_pairs cfg))
            then ALIVE else DEAD).
Proof.
  intros Hrows Hcols Hmax Hpairs.
  set (bounds := mk_init_data (cfg_num_rows cfg) (cfg_num_cols cfg)
                              (cfg_iterations cfg) (cfg_init_pairs cfg)).
  destruct (initEarth_pairs_spec bounds (cfg_pairs cfg)
              (replicate (Z.to_nat (cfg_num_rows cfg * cfg_num_cols cfg)) DEAD))
    as (earth & Hfold & Hlen & Hload).
  { rewrite length_replicate. lia. }
  { eapply Forall_impl; [exact Hpairs |]. intros p Hp. simpl in *.
    rewrite length_replicate. lia. }
  rewrite length_replicate in Hlen, Hload.
  exists earth. split_and!; [| done |].
  - unfold initEarth. fold bounds. simpl.
    rewrite decide_False by nia. by rewrite Hfold.
  - intros j Hj. rewrite Hload by lia. simpl.
    case_decide; [done |]. apply load_replicate. lia.
Qed.

(** For a board with [rows >= 1], [cols >= 1] and at most [INT_MAX]
    cells and with every pair in range, [0 <= col < cols] and
    [0 <= row < rows], [initEarth] returns a board of [rows*cols] cells on
    which the cell in row [row] and column [col] is alive exactly when
    [(col, row)] is one of the pairs, and dead otherwise. *)
Theorem initEarth_in_range_pairs (cfg : config) :
  let rows := cfg_num_rows cfg in
  let cols := cfg_num_cols cfg in
  1 ≤ rows → 1 ≤ cols → rows * cols ≤ INT_MAX →
  Forall (λ p, 0 ≤ p.1 < cols ∧ 0 ≤ p.2 < rows) (cfg_pairs cfg) →
  ∃ bounds earth,
    initEarth (Some cfg) = Ok (bounds, earth) ∧
    num_rows bounds = rows ∧ num_cols bounds = cols ∧
    length earth = Z.to_nat (rows * cols) ∧
    ∀ col row, 0 ≤ col < cols → 0 ≤ row < rows →
      load earth (cols * row + col) =
      Some (if decide ((col, row) ∈ cfg_pairs cfg) then ALIVE else DEAD).
Proof.
  intros rows cols Hrows Hcols Hmax Hpairs.
  destruct (initEarth_board cfg Hrows Hcols Hmax)
    as (earth & Hinit & Hlen & Hload).
  { eapply Forall_impl; [exact Hpairs |]. intros [col row] [? ?].
    simpl in *. fold rows cols. nia. }
  eexists _, earth. split; [exact Hinit |]. split_and!; try done.
  intros col row Hcol Hrow. rewrite Hload by (fold rows cols; nia).
  fold cols. f_equal. apply decide_ext.
  rewrite Exists_exists. split.
  - intros ([col' row'] & Hin & Heq). simpl in Heq.
    rewrite Forall_forall in Hpairs.
    destruct (Hpairs _ Hin) as [? ?]. simpl in *.
    destruct (cell_index_inj cols row' col' row col) as [-> ->];
      [done | done | lia | done].
  - intros Hin. by exists (col, row).
Qed.

Lemma initEarth_in_range_pairs_witness :
  ∃ bounds earth,
    initEarth (Some (mk_config 2 3 1 2 [(2, 0); (0, 1)])) = Ok (bounds, earth) ∧
    num_rows bounds = 2 ∧ num_cols bounds = 3 ∧
    length earth = Z.to_nat (2 * 3) ∧
    ∀ col row, 0 ≤ col < 3 → 0 ≤ row < 2 →
      load earth (3 * row + col) =
      Some (if decide ((col, row) ∈ [(2, 0); (0, 1)]) then ALIVE else DEAD).
Proof.
  apply (initEarth_in_range_pairs (mk_config 2 3 1 2 [(2, 0); (0, 1)])).
  - simpl; lia.
  - simpl; lia.
  - unfold INT_MAX; simpl; lia.
  - simpl. repeat constructor; simpl; lia.
Defined.

(** The board depends on the pairs as a set: two configurations with the
    same dimensions, [rows >= 1], [cols >= 1] and at most [INT_MAX] cells,
    whose pairs, all with their linear index inside the board, are the same
    up to order and repetition give the same board. *)
Theorem initEarth_pairs_as_set (cfg1 cfg2 : config) :
  1 ≤ cfg_num_rows cfg1 → 1 ≤ cfg_num_cols cfg1 →
  cfg_num_rows cfg1 * cfg_num_cols cfg1 ≤ INT_MAX →
  cfg_num_rows cfg1 = cfg_num_rows cfg2 →
  cfg_num_cols cfg1 = cfg_num_cols cfg2 →
  (∀ p, p ∈ cfg_pairs cfg1 ↔ p ∈ cfg_pairs cfg2) →
  Forall (λ p, 0 ≤ cfg_num_cols cfg1 * p.2 + p.1
                 < cfg_num_rows cfg1 * cfg_num_cols cfg1) (cfg_pairs cfg1) →
  ∃ bounds1 bounds2 earth,
    initEarth (Some cfg1) = Ok (bounds1, earth) ∧
    initEarth (Some cfg2) = Ok (bounds2, earth).
Proof.
  intros Hr1 Hc1 Hmax1 Hrows Hcols Hsame Hpairs.
  assert (Hpairs2 : Forall (λ p, 0 ≤ cfg_num_cols cfg2 * p.2 + p.1
                      < cfg_num_rows cfg2 * cfg_num_cols cfg2) (cfg_pairs cfg2)).
  { rewrite <- Hrows, <- Hcols. rewrite Forall_forall in Hpairs.
    apply Forall_forall. intros p Hp. apply Hpairs. by apply Hsame. }
  destruct (initEarth_board cfg1 Hr1 Hc1 Hmax1 Hpairs)
    as (earth1 & Hinit1 & Hlen1 & Hload1).
  destruct (initEarth_board cfg2) as (earth2 & Hinit2 & Hlen2 & Hload2);
    [lia | lia | by rewrite <- Hrows, <- Hcols | exact Hpairs2 |].
  assert (Heq : earth1 = earth2).
  { apply load_ext; [rewrite Hlen1, Hlen2, Hrows, Hcols; done |].
    intros j Hj. rewrite Hlen1 in Hj.
    rewrite Hload1, Hload2 by lia. f_equal. apply decide_ext.
    rewrite !Exists_exists, Hcols. split; intros (p & Hp & ?); exists p;
      (split; [by apply Hsame | done]). }
  subst earth2. eauto.
Qed.

Lemma initEarth_pairs_as_set_witness :
  ∃ bounds1 bounds2 earth,
    initEarth (Some (mk_config 2 2 1 2 [(1, 0); (0, 1)])) = Ok (bounds1, earth) ∧
    initEarth (Some (mk_config 2 2 5 3 [(0, 1); (1, 0); (0, 1)]))
      = Ok (bounds2, earth).
Proof.
  apply (initEarth_pairs_as_set (mk_config 2 2 1 2 [(1, 0); (0, 1)])
           (mk_config 2 2 5 3 [(0, 1); (1, 0); (0, 1)])).
  - simpl; lia.
  - simpl; lia.
  - unfold INT_MAX; simpl; lia.
  - reflexivity.
  - reflexivity.
  - intros p. simpl. rewrite !elem_of_cons, !elem_of_nil. tauto.
  - simpl. repeat constructor; simpl; lia.
Defined.

(** ** Boards without live cells and boards full of them *)

Lemma neighbors_none_alive (bounds : init_data) (earth : list ascii) (index : Z) :
  (∀ k, cell_is earth k ALIVE = false) → neighbors earth index bounds = 0.
Proof.
  intros Hdead. unfold neighbors.
  induction (neighbor_indices index bounds) as [| k l IH] using rev_ind;
    [done |].
  rewrite foldl_app. simpl. by rewrite Hdead.
Qed.


Lemma Forall_load {A : Type} (P : A → Prop) (a : list A) :
  Forall P a ↔ ∀ j x, load a j = Some x → P x.
Proof.
  rewrite Forall_lookup. split.
  - intros H j x Hj. unfold load in Hj. case_decide; [| done]. by eapply H.
  - intros H i x Hi. apply (H (Z.of_nat i)). unfold load.
    rewrite decide_True by lia. by rewrite Nat2Z.id.
Qed.

Lemma next_earth_spec_dead (bounds : init_data) (earth : list ascii) :
  Forall (λ c, c = DEAD) earth → next_earth_spec bounds earth = earth.
Proof.
  intros Hdead. apply load_ext; [apply next_earth_spec_length |].
  intros j Hj. rewrite next_earth_spec_length in Hj.
  destruct (proj2 (load_is_Some earth j) Hj) as [c Hc].
  rewrite (next_earth_spec_load _ _ _ _ Hc), Hc. f_equal.
  rewrite (proj1 (Forall_load _ _) Hdead j c Hc).
  rewrite neighbors_none_alive; [done |].
  intros k. unfold cell_is. apply bool_decide_eq_false.
  intros Hk. by pose proof (proj1 (Forall_load _ _) Hdead k _ Hk).
Qed.

(** A board without live cells is left as it is by any number of
    iterations of the pool, for every accepted thread count and every
    schedule. *)
Theorem dead_board_stays_dead (bounds : init_data) (W p_flag verbose : Z)
    (n : nat) (i : Z) (w w' : world) :
  grid_ok bounds (w_earth w) →
  1 ≤ W ≤ num_rows bounds →
  Forall (λ c, c = DEAD) (w_earth w) →
  generations (init_thread_data bounds W p_flag verbose) bounds n i w w' →
  w_earth w' = w_earth w.
Proof.
  intros (Hr & Hc & Hlen) HW Hdead Hrun.
  apply generations_next_earth_spec in Hrun;
    [| done | by apply init_thread_data_covers].
  rewrite Hrun. clear Hrun.
  induction n as [| n IH]; [done |]. simpl. rewrite IH.
  by apply next_earth_spec_dead.
Qed.

Lemma dead_board_stays_dead_witness :
  let bounds := mk_init_data 3 3 10 0 in
  let thread_data := init_thread_data bounds 2 0 0 in
  let w := mk_world (replicate 9 DEAD) [] in
  ∃ w', generations thread_data bounds 10 0 w w' ∧ w_earth w' = w_earth w.
Proof.
  intros bounds thread_data w.
  destruct (generations_exists thread_data bounds 10 0 w) as [w' Hw'].
  exists w'. split; [exact Hw' |].
  apply (dead_board_stays_dead bounds 2 0 0 10 0 w w').
  - unfold grid_ok; simpl; lia.
  - simpl; lia.
  - simpl. repeat constructor.
  - exact Hw'.
Defined.



(** ** The alphabet of the board *)

(** The pool keeps the size of the board and never writes a character
    other than ['@'] and ['-']: a board of such cells is one after any number
    of iterations. *)
Theorem generations_keep_two_valued_board (bounds : init_data)
    (W p_flag verbose : Z) (n : nat) (i : Z) (w w' : world) :
  grid_ok bounds (w_earth w) →
  1 ≤ W ≤ num_rows bounds →
  Forall (λ c, c = ALIVE ∨ c = DEAD) (w_earth w) →
  generations (init_thread_data bounds W p_flag verbose) bounds n i w w' →
  grid_ok bounds (w_earth w') ∧
  Forall (λ c, c = ALIVE ∨ c = DEAD) (w_earth w').
Proof.
  intros Hgrid HW Hcells Hrun.
  pose proof Hgrid as (Hr & Hc & Hlen).
  apply generations_next_earth_spec in Hrun;
    [| done | by apply init_thread_data_covers].
  rewrite Hrun. clear Hrun. split.
  { unfold grid_ok. by rewrite next_earth_spec_iter_length. }
  induction n as [| n IH]; [done |]. simpl.
  apply Forall_load. intros j x Hj.
  pose proof (load_Some_bounds _ _ _ Hj) as Hjb.
  rewrite next_earth_spec_length in Hjb.
  destruct (proj2 (load_is_Some _ j) Hjb) as [c Hload].
  rewrite (next_earth_spec_load _ _ _ _ Hload) in Hj. injection Hj as <-.
  pose proof (proj1 (Forall_load _ _) IH j c Hload) as Hc2.
  unfold transition_spec. repeat case_decide; auto.
Qed.

Lemma generations_keep_two_valued_board_witness :
  let bounds := mk_init_data 2 2 3 1 in
  let thread_data := init_thread_data bounds 2 0 0 in
  let w := mk_world [DEAD; ALIVE; DEAD; DEAD] [] in
  ∃ w', generations thread_data bounds 3 0 w w' ∧
        grid_ok bounds (w_earth w') ∧
        Forall (λ c, c = ALIVE ∨ c = DEAD) (w_earth w').
Proof.
  intros bounds thread_data w.
  destruct (generations_exists thread_data bounds 3 0 w) as [w' Hw'].
  exists w'. split; [exact Hw' |].
  apply (generations_keep_two_valued_board bounds 2 0 0 3 0 w w').
  - unfold grid_ok; simpl; lia.
  - simpl; lia.
  - simpl. repeat (apply Forall_cons_2; [(by left) || (by right) |]).
    apply Forall_nil_2.
  - exact Hw'.
Defined.

(** ** What a run prints *)

Lemma interleaving_Permutation {A : Type} (tasks : list (list A))
    (sched : list A) :
  interleaving tasks sched → sched ≡ₚ concat tasks.
Proof.
  induction 1 as [tasks Hnil | before x t after sched _ IH].
  - induction Hnil as [| t tasks -> _ IH]; [done | exact IH].
  - rewrite concat_app in *. simpl in *.
    rewrite IH. apply Permutation_middle.
Qed.

(** Of the threads of the table only thread 0 reports, and only when
    [main] was given [verbose = 1]. *)
Lemma report_tasks (bounds : init_data) (W p_flag verbose i : Z) :
  0 ≤ num_rows bounds → 1 ≤ W →
  concat ((λ td, threadFunc_report td bounds i)
          <$> init_thread_data bounds W p_flag verbose)
  = if decide (verbose = 1) then [PrintEarth bounds i] else [].
Proof.
  intros Hrows HW. rewrite init_thread_data_closed by lia.
  rewrite (seqZ_cons 0 W) by lia. rewrite !fmap_cons. cbn [concat].
  assert (Hrest : ∀ l, Forall (λ k, k ≠ 0) l →
    concat ((λ td, threadFunc_report td bounds i)
            <$> (nth_thread bounds W p_flag verbose <$> l)) = []).
  { induction l as [| k l IH]; intros Hl; [done |].
    apply Forall_cons in Hl as [Hk Hl]. rewrite !fmap_cons. cbn [concat].
    rewrite IH by done.
    unfold threadFunc_report. simpl. rewrite decide_False by tauto. done. }
  rewrite Hrest, app_nil_r.
  - unfold threadFunc_report. simpl.
    destruct (decide (verbose = 1)) as [Hv | Hv].
    + rewrite (decide_True (P := verbose = 1 ∧ 0 = 0)) by done.
      by rewrite decide_True.
    + rewrite (decide_False (P := verbose = 1 ∧ 0 = 0)) by tauto.
      rewrite decide_False; [done |]. intros [_ ?]. done.
  - apply Forall_seqZ. lia.
Qed.

(** One iteration of the pool is a function of the world: the board
    becomes the next generation and, when verbose, the call of [printEarth]
    on that board is added to the output. *)
Lemma generation_world (bounds : init_data) (W p_flag verbose i : Z)
    (w w' : world) :
  grid_ok bounds (w_earth w) →
  1 ≤ W ≤ num_rows bounds →
  generation (init_thread_data bounds W p_flag verbose) bounds i w w' →
  w' = mk_world
         (next_earth_spec bounds (w_earth w))
         (w_stdout w ++
          if decide (verbose = 1)
          then [EvPrintEarth (next_earth_spec bounds (w_earth w)) bounds i]
          else []).
Proof.
  intros (Hr & Hc & Hlen) HW Hgen.
  pose proof (generation_next_earth_spec _ _ _ _ _ Hlen
                (init_thread_data_covers bounds W p_flag verbose Hr Hc HW) Hgen)
    as Hearth.
  destruct Hgen as (w1 & Happly & Hreport).
  pose proof (apply_phase_stdout _ _ _ _ Happly) as Hout.
  pose proof (report_phase_earth _ _ _ _ _ Hreport) as Hsame.
  destruct Hreport as (sched & Hint & ->).
  apply interleaving_Permutation in Hint.
  rewrite report_tasks in Hint by lia.
  rewrite <- Hearth, Hsame, <- Hout.
  destruct (decide (verbose = 1)).
  - apply Permutation_singleton_r in Hint as ->. by destruct w1.
  - apply Permutation_nil_r in Hint as ->. simpl.
    rewrite app_nil_r. by destruct w1.
Qed.

Lemma generations_world (bounds : init_data) (W p_flag verbose : Z)
    (n : nat) (i : Z) (w w' : world) :
  grid_ok bounds (w_earth w) →
  1 ≤ W ≤ num_rows bounds →
  generations (init_thread_data bounds W p_flag verbose) bounds n i w w' →
  w' = mk_world
         (Nat.iter n (next_earth_spec bounds) (w_earth w))
         (w_stdout w ++
          if decide (verbose = 1)
          then printEarth_events bounds (w_earth w) i n else []).
Proof.
  intros Hgrid HW. revert i w Hgrid.
  induction n as [| n IH]; intros i w Hgrid; simpl.
  - intros ->. destruct w. simpl. case_decide; by rewrite app_nil_r.
  - intros (w1 & Hgen & Hrest).
    apply generation_world in Hgen; [| done | done]. subst w1.
    apply IH in Hrest.
    + rewrite Hrest. simpl. rewrite <- Nat.iter_succ_r. simpl.
      f_equal. rewrite <- app_assoc. f_equal. by case_decide.
    + destruct Hgrid as (? & ? & ?). unfold grid_ok. simpl.
      by rewrite next_earth_spec_length.
Qed.

(** In [n] iterations of the pool with the table of [main], [printEarth]
    is called exactly once per iteration when [verbose] is 1, in the order
    of the iterations, each time with the iteration number and the board as
    that generation left it; without [verbose = 1] the iterations print
    nothing. *)
Theorem reporter_prints_every_generation (bounds : init_data)
    (W p_flag verbose : Z) (n : nat) (i : Z) (w w' : world) :
  grid_ok bounds (w_earth w) →
  1 ≤ W ≤ num_rows bounds →
  generations (init_thread_data bounds W p_flag verbose) bounds n i w w' →
  w_stdout w' =
    w_stdout w ++
    (if decide (verbose = 1)
     then printEarth_events bounds (w_earth w) i n else []) ∧
  length (printEarth_events bounds (w_earth w) i n) = n ∧
  ∀ k earth b j,
    printEarth_events bounds (w_earth w) i n !! k = Some (EvPrintEarth earth b j) →
    earth = Nat.iter (S k) (next_earth_spec bounds) (w_earth w) ∧
    b = bounds ∧ j = i + Z.of_nat k.
Proof.
  intros Hgrid HW Hrun.
  rewrite (generations_world _ _ _ _ _ _ _ _ Hgrid HW Hrun). simpl.
  split; [done |]. clear. generalize (w_earth w) as e. revert i.
  induction n as [| n IH]; intros i e; simpl.
  - split; [done |]. intros k ? ? ? Hk. by rewrite lookup_nil in Hk.
  - destruct (IH (i + 1) (next_earth_spec bounds e)) as [Hlen Hev].
    split; [by rewrite Hlen |].
    intros [| k] earth b j Hk; simpl in Hk.
    + injection Hk as <- <- <-. split_and!; [done | done | lia].
    + apply Hev in Hk as (-> & -> & ->).
      split_and!; [| done | lia].
      by rewrite <- Nat.iter_succ_r.
Qed.

Lemma reporter_prints_every_generation_witness :
  let bounds := mk_init_data 2 2 2 1 in
  let w := mk_world [DEAD; ALIVE; DEAD; DEAD] [] in
  ∃ w',
    generations (init_thread_data bounds 2 0 1) bounds 2 0 w w' ∧
    w_stdout w' =
      w_stdout w ++
      (if decide (1 = 1)
       then printEarth_events bounds (w_earth w) 0 2 else []) ∧
    length (printEarth_events bounds (w_earth w) 0 2) = 2%nat ∧
    ∀ k earth b j,
      printEarth_events bounds (w_earth w) 0 2 !! k
        = Some (EvPrintEarth earth b j) →
      earth = Nat.iter (S k) (next_earth_spec bounds) (w_earth w) ∧
      b = bounds ∧ j = 0 + Z.of_nat k.
Proof.
  intros bounds w.
  destruct (generations_exists (init_thread_data bounds 2 0 1) bounds 2 0 w)
    as [w' Hw'].
  exists w'. split; [exact Hw' |].
  apply (reporter_prints_every_generation bounds 2 0 1 2 0 w w').
  - unfold grid_ok; simpl; lia.
  - simpl; lia.
  - exact Hw'.
Defined.








(** ** The marks of a thread *)

(** The array [change] a thread fills in one call of [simulateLife] has
    the size of the board, holds only 0, -1 and -2, is 0 at every cell
    outside the rows of the thread, and marks a cell of the thread with -1
    only if it is alive and with -2 only if it is dead on the board the
    call started on. *)
Theorem change_marks_own_cells (td : Threads) (bounds : init_data)
    (earth : list ascii) (j : Z) :
  0 ≤ j < num_rows bounds * num_cols bounds →
  ∃ m, load (simulateLife_decide td bounds earth) j = Some m ∧
       (m = 0 ∨ m = -1 ∨ m = -2) ∧
       (¬ owns_cell td bounds j → m = 0) ∧
       (m = -1 → load earth j = Some ALIVE) ∧
       (m = -2 → load earth j = Some DEAD) ∧
       load (simulateLife_decide td bounds earth)
            (num_rows bounds * num_cols bounds) = None.
Proof.
  intros Hj. eexists. split; [by apply simulateLife_decide_spec |].
  split_and!.
  - case_decide; [| by left].
    destruct (decision_cases earth bounds j) as [? | [? | ?]]; auto.
  - intros Hn. by rewrite decide_False.
  - case_decide; [| done]. unfold decision.
    destruct (cell_is earth j ALIVE) eqn:Ha.
    + intros _. by apply cell_is_true.
    + destruct (cell_is earth j DEAD); repeat case_decide; done.
  - case_decide; [| done]. unfold decision.
    destruct (cell_is earth j ALIVE) eqn:Ha.
    + repeat case_decide; done.
    + destruct (cell_is earth j DEAD) eqn:Hd; [| done].
      intros _. by apply cell_is_true.
  - apply simulateLife_decide_outside. lia.
Qed.

Lemma change_marks_own_cells_witness :
  let bounds := mk_init_data 2 2 1 1 in
  let td := mk_Threads 0 0 0 0 0 in
  ∃ m, load (simulateLife_decide td bounds [ALIVE; DEAD; DEAD; DEAD]) 0 = Some m ∧
       (m = 0 ∨ m = -1 ∨ m = -2) ∧
       (¬ owns_cell td bounds 0 → m = 0) ∧
       (m = -1 → load [ALIVE; DEAD; DEAD; DEAD] 0 = Some ALIVE) ∧
       (m = -2 → load [ALIVE; DEAD; DEAD; DEAD] 0 = Some DEAD) ∧
       load (simulateLife_decide td bounds [ALIVE; DEAD; DEAD; DEAD])
            (num_rows bounds * num_cols bounds) = None.
Proof.
  intros bounds td.
  apply (change_marks_own_cells td bounds [ALIVE; DEAD; DEAD; DEAD] 0).
  simpl. lia.
Defined.

(** ** The thread count *)

Lemma main_options_threads (opts : list getopt_option) (st0 st : options) :
  omap thread_option opts = [] →
  foldl main_option (Ok st0) opts = Ok st →
  o_num_threads st = o_num_threads st0.
Proof.
  revert st0. induction opts as [| c opts IH]; intros st0 Hno; simpl.
  { by intros [= ->]. }
  destruct c as [| optarg | returns | optarg returns | value | |];
    simpl in *; try done;
    try (intros Hrun; by rewrite (IH _ Hno Hrun)).
  - case_decide; [by rewrite main_option_stopped |].
    intros Hrun. by rewrite (IH _ Hno Hrun).
  - destruct returns;
      [by rewrite main_option_stopped | by rewrite main_option_lost].
  - case_decide; [by rewrite main_option_stopped |].
    destruct returns; [| by rewrite main_option_lost].
    intros Hrun. by rewrite (IH _ Hno Hrun).
Qed.

(** With a thread count below 1 or above the number of rows [main] ends
    by [exit(1)] and the pool never runs; when the options leave the
    default, 4 threads, this happens on every board with fewer than 4
    rows. *)
Theorem main_rejects_thread_count (config_file : option config)
    (bounds : init_data) (earth : list ascii) (W p_flag verbose : Z)
    (out : result world) :
  initEarth config_file = Ok (bounds, earth) →
  W < 1 ∨ num_rows bounds < W →
  (main config_file W p_flag verbose out ↔ out = Exit 1) ∧
  ∀ opts st,
    main_options opts = Ok st → omap thread_option opts = [] →
    num_rows bounds < 4 →
    (main config_file (o_num_threads st) (o_p_flag st) (o_verbose st) out
     ↔ out = Exit 1).
Proof.
  intros Hinit HW. split.
  - unfold main. rewrite Hinit. rewrite decide_True by lia. done.
  - intros opts st Hopts Hno Hrows.
    rewrite (main_options_threads opts _ st Hno Hopts). simpl.
    unfold main. rewrite Hinit. rewrite decide_True by lia. done.
Qed.

Lemma main_rejects_thread_count_witness :
  let cfg := mk_config 3 3 1 0 [] in
  (main (Some cfg) 0 0 0 (Exit 1) ↔ Exit 1 = Exit 1 :> result world) ∧
  ∀ opts st,
    main_options opts = Ok st → omap thread_option opts = [] →
    num_rows (mk_init_data 3 3 1 0) < 4 →
    (main (Some cfg) (o_num_threads st) (o_p_flag st) (o_verbose st) (Exit 1)
     ↔ Exit 1 = Exit 1 :> result world).
Proof.
  intros cfg.
  apply (main_rejects_thread_count (Some cfg) (mk_init_data 3 3 1 0)
           (replicate 9 DEAD) 0 0 0 (Exit 1)).
  - reflexivity.
  - left. lia.
Defined.

(** ** The neighbour relation *)







